(** * pounce-on-go: the two mutex-guarded in-memory stores

    The repository is a set of Go teaching programs.  Two of them keep a
    map behind a mutex:

    - the item store ([Store], [AddItem], [GetItem]), keyed by name;
    - the product service ([ProductService], [CreateProduct],
      [GetProducts]) with its two HTTP handlers, keyed by an identity
      that the service assigns.

    The others pass pointers around: to [int] variables ([addOne],
    [swap], [updateEngineNumber], [Counter]), to structs that allocate
    what their nil fields lack ([LargeData], [RequestData],
    [ResourceManager], [DataManager]), and to an array ([processBite]).

    Each Go function is embedded as a function in a small state monad
    whose state is the memory the function can reach.  A call that cannot
    return (it waits for a mutex nobody will release, or it panics) has
    no result.  The methods of the two stores are also run as goroutines
    that interleave statement by statement. *)

From Stdlib Require Import ZArith Lia.
From stdpp Require Import base option list gmap strings pretty.

Local Open Scope Z_scope.
Set Warnings "-register-all".

(** ** Go's [int] on a 64-bit target *)

Module GoInt.

Definition int_bits : Z := 64.
Definition min_int : Z := - 2 ^ (int_bits - 1).
Definition max_int : Z := 2 ^ (int_bits - 1) - 1.

(** Two's complement wrap-around of an arithmetic result. *)
Definition wrap (z : Z) : Z :=
  (z + 2 ^ (int_bits - 1)) mod 2 ^ int_bits - 2 ^ (int_bits - 1).

(** [n++] *)
Definition incr (n : Z) : Z := wrap (n + 1).

End GoInt.

(** ** A state monad for method bodies

    [M S A] is a computation over a memory [S] that either returns an [A]
    and a new memory, or never returns. *)

Module Go.

Definition M (S A : Type) : Type := S → option (A * S).

Definition ret {S A} (a : A) : M S A := λ s, Some (a, s).

Definition bind {S A B} (c : M S A) (k : A → M S B) : M S B :=
  λ s, match c s with
       | Some (a, s') => k a s'
       | None => None
       end.

Definition get {S} : M S S := λ s, Some (s, s).
Definition modify {S} (f : S → S) : M S unit := λ s, Some (tt, f s).

(** Lift a partial update of the memory: where [f] is undefined the
    computation does not return. *)
Definition try {S} (f : S → option S) : M S unit :=
  λ s, match f s with
       | Some s' => Some (tt, s')
       | None => None
       end.

End Go.

Notation "'let*' x ':=' c 'in' k" := (Go.bind c (λ x, k))
  (at level 10, x pattern, c at level 100, k at level 200).
Notation "c ';;' k" := (Go.bind c (λ _, k))
  (at level 100, k at level 200, right associativity).

(** ** package sync *)

Module sync.

(** [sync.Mutex]; the zero value is an unlocked mutex. *)
Record Mutex := { locked : bool }.

Definition zeroMutex : Mutex := {| locked := false |}.

(** [Lock] waits while the mutex is held. *)
Definition Lock (m : Mutex) : option Mutex :=
  if locked m then None else Some {| locked := true |}.

(** [Unlock] of a mutex that is not held is a fatal error. *)
Definition Unlock (m : Mutex) : option Mutex :=
  if locked m then Some {| locked := false |} else None.

(** [sync.RWMutex]: one writer or any number of readers. *)
Record RWMutex := { writer : bool; readers : nat }.

Definition zeroRWMutex : RWMutex := {| writer := false; readers := 0 |}.

Definition RWLock (m : RWMutex) : option RWMutex :=
  if writer m then None
  else match readers m with
       | O => Some {| writer := true; readers := 0 |}
       | S _ => None
       end.

Definition RWUnlock (m : RWMutex) : option RWMutex :=
  if writer m then Some {| writer := false; readers := readers m |} else None.

Definition RLock (m : RWMutex) : option RWMutex :=
  if writer m then None
  else Some {| writer := false; readers := S (readers m) |}.

Definition RUnlock (m : RWMutex) : option RWMutex :=
  match readers m with
  | O => None
  | S n => Some {| writer := writer m; readers := n |}
  end.

End sync.

(** ** The item store *)

Module ItemStore.
Import Go.

Record Item := { Name : string; Price : Z }.

Record Store := { items : gmap string Item; mu : sync.Mutex }.

(** [errors.New(text)] *)
Inductive error := errors_New (text : string).

(** Addresses of the [Item] variables whose address has been taken. *)
Definition loc := positive.

(** The memory a caller of the store can reach: the [Store] behind the
    pointer returned by [NewStore], and the [Item] variables that
    [GetItem] has handed out by address. *)
Record Mem := { store : Store; heap : gmap loc Item }.

Definition NewStore : Store := {| items := ∅; mu := sync.zeroMutex |}.

Definition boot : Mem := {| store := NewStore; heap := ∅ |}.

Definition mu_Lock : M Mem unit :=
  try (λ m, l ← sync.Lock (mu (store m));
            Some {| store := {| items := items (store m); mu := l |};
                    heap := heap m |}).

Definition mu_Unlock : M Mem unit :=
  try (λ m, l ← sync.Unlock (mu (store m));
            Some {| store := {| items := items (store m); mu := l |};
                    heap := heap m |}).

(** [s.items[key] = item] *)
Definition items_store (key : string) (item : Item) : M Mem unit :=
  modify (λ m, {| store := {| items := <[key := item]> (items (store m));
                              mu := mu (store m) |};
                  heap := heap m |}).

(** [&item] for a local [item]: the variable lives in a cell of its own. *)
Definition address_of (item : Item) : M Mem loc :=
  λ m, let l := fresh (dom (heap m)) in
       Some (l, {| store := store m; heap := <[l := item]> (heap m) |}).

(** [*p = item] by a caller that holds the pointer [p]. *)
Definition write_through (p : loc) (item : Item) : M Mem unit :=
  modify (λ m, {| store := store m; heap := <[p := item]> (heap m) |}).

Definition AddItem (item : Item) : M Mem unit :=
  mu_Lock ;;
  items_store (Name item) item ;;
  mu_Unlock.

Definition GetItem (name : string) : M Mem (option error * option loc) :=
  mu_Lock ;;
  let* m := get in
  match items (store m) !! name with
  | None =>
      mu_Unlock ;;
      ret (Some (errors_New "item not found"), None)
  | Some item =>
      let* p := address_of item in
      mu_Unlock ;;
      ret (None, Some p)
  end.

(** The [Item] a result of [GetItem] points to. *)
Definition deref (m : Mem) (p : option loc) : option Item :=
  l ← p; heap m !! l.

(** What a caller of [GetItem] sees: the error and the [Item] behind
    the pointer. *)
Definition GetItem_value (name : string) : M Mem (option error * option Item) :=
  let* r := GetItem name in
  let* m := get in
  ret (fst r, deref m (snd r)).

(** Calls of [AddItem], one after the other. *)
Definition adds (l : list Item) : M Mem unit :=
  foldr (λ item k, AddItem item ;; k) (ret tt) l.

(** Nobody holds the mutex. *)
Definition free (m : Mem) : Prop := mu (store m) = sync.zeroMutex.

End ItemStore.

(** The two items of the program's [main], and a store holding them. *)

Module ItemStoreExamples.
Import Go ItemStore.

Definition apple : Item := {| Name := "Apple"; Price := 1 |}.
Definition banana : Item := {| Name := "Banana"; Price := 2 |}.

Definition stocked : Mem :=
  {| store := {| items := <["Banana" := banana]> (<["Apple" := apple]> ∅);
                 mu := sync.zeroMutex |};
     heap := ∅ |}.

End ItemStoreExamples.

(** ** The product service: data and methods *)

Module ProductAPI.
Import Go.

Record Product := { ID : Z; Name : string; Price : Z }.

Record ProductService :=
  { products : gmap Z Product; mu : sync.RWMutex; nextID : Z }.

(** A slice of products is the address of its backing array. *)
Definition slice := positive.

(** The memory of the process: the [ProductService] behind the pointer
    that [main] shares with the handlers, what has been printed on
    standard output, and the backing arrays of the slices made so far. *)
Record Proc :=
  { service : ProductService;
    stdout : list string;
    arrays : gmap slice (list Product) }.

Definition NewProductService : ProductService :=
  {| products := ∅; mu := sync.zeroRWMutex; nextID := 1 |}.

Definition boot : Proc :=
  {| service := NewProductService; stdout := []; arrays := ∅ |}.

Definition with_service (ps : ProductService) (m : Proc) : Proc :=
  {| service := ps; stdout := stdout m; arrays := arrays m |}.

Definition with_arrays (h : gmap slice (list Product)) (m : Proc) : Proc :=
  {| service := service m; stdout := stdout m; arrays := h |}.

Definition with_mu (l : sync.RWMutex) (ps : ProductService) : ProductService :=
  {| products := products ps; mu := l; nextID := nextID ps |}.

Definition ps_mu_Lock : M Proc unit :=
  try (λ m, l ← sync.RWLock (mu (service m));
            Some (with_service (with_mu l (service m)) m)).

Definition ps_mu_Unlock : M Proc unit :=
  try (λ m, l ← sync.RWUnlock (mu (service m));
            Some (with_service (with_mu l (service m)) m)).

(** [ps.products[key] = p] *)
Definition products_store (key : Z) (p : Product) : M Proc unit :=
  modify (λ m, with_service {| products := <[key := p]> (products (service m));
                               mu := mu (service m);
                               nextID := nextID (service m) |} m).

(** [ps.nextID++] *)
Definition nextID_incr : M Proc unit :=
  modify (λ m, with_service {| products := products (service m);
                               mu := mu (service m);
                               nextID := GoInt.incr (nextID (service m)) |} m).

Definition Print (line : string) : M Proc unit :=
  modify (λ m, {| service := service m;
                  stdout := stdout m ++ [line];
                  arrays := arrays m |}).

Definition newline : string := String (Ascii.ascii_of_nat 10) EmptyString.

(** [fmt.Sprintf("Created new product: ID=%d, Name=%s\n", id, name)] *)
Definition created_line (id : Z) (name : string) : string :=
  "Created new product: ID=" +:+ pretty id +:+ ", Name=" +:+ name +:+ newline.

(** [newProduct.ID = id] on the callee's copy of the argument. *)
Definition set_ID (id : Z) (p : Product) : Product :=
  {| ID := id; Name := Name p; Price := Price p |}.

(** Pointer receiver: the method works on the shared service.  It has
    no result parameter. *)
Definition CreateProduct (newProduct : Product) : M Proc unit :=
  ps_mu_Lock ;;
  let* m := get in
  let newProduct := set_ID (nextID (service m)) newProduct in
  products_store (ID newProduct) newProduct ;;
  nextID_incr ;;
  Print (created_line (ID newProduct) (Name newProduct)) ;;
  ps_mu_Unlock.

(** The entries of a map in the order one execution of a [range]
    statement yields them.  Go leaves the order unspecified: any
    arrangement of the entries can occur. *)
Definition range_of (m : gmap Z Product) (visit : list (Z * Product)) : Prop :=
  visit ≡ₚ map_to_list m.

(** [make([]Product, 0, n)]: a new, empty backing array. *)
Definition make : M Proc slice :=
  λ m, let s := fresh (dom (arrays m)) in
       Some (s, with_arrays (<[s := []]> (arrays m)) m).

(** [products = append(products, p)].  The capacity asked of [make] is
    the number of entries, so the array is extended in place. *)
Definition append (s : slice) (p : Product) : M Proc unit :=
  modify (λ m, with_arrays (alter (λ l, l ++ [p]) s (arrays m)) m).

(** [products[i] = p] by a caller that holds the slice. *)
Definition write_elem (s : slice) (i : nat) (p : Product) : M Proc unit :=
  modify (λ m, with_arrays (alter (λ l, <[i := p]> l) s (arrays m)) m).

(** The elements of a slice. *)
Definition elems (m : Proc) (s : slice) : list Product :=
  default [] (arrays m !! s).

(** The loop of [GetProducts]. *)
Definition collect (s : slice) (visit : list (Z * Product)) : M Proc unit :=
  foldr (λ kv k, append s (snd kv) ;; k) (ret tt) visit.

(** Value receiver: [ps] is the callee's own copy of the struct, mutex
    included, so the method locks and unlocks the copy.  [visit] is the
    order in which the [range] statement yields the entries. *)
Definition GetProducts (visit : list (Z * Product)) (ps : ProductService)
  : M Proc slice :=
  match sync.RLock (mu ps) with
  | None => λ _, None
  | Some l =>
      let ps := with_mu l ps in
      let* products := make in
      collect products visit ;;
      match sync.RUnlock (mu ps) with
      | None => λ _, None
      | Some _ => ret products
      end
  end.

(** [service.GetProducts()] through the shared pointer: the receiver is
    copied from the shared struct. *)
Definition call_GetProducts (visit : list (Z * Product)) : M Proc slice :=
  let* m := get in GetProducts visit (service m).

(** One order, for running examples. *)
Definition some_order (m : Proc) : list (Z * Product) :=
  map_to_list (products (service m)).

(** Calls of [CreateProduct], one after the other. *)
Definition creates (l : list Product) : M Proc unit :=
  foldr (λ p k, CreateProduct p ;; k) (ret tt) l.

(** What a caller of [GetProducts] sees: the elements of the slice. *)
Definition GetProducts_value (visit : list (Z * Product)) : M Proc (list Product) :=
  let* s := call_GetProducts visit in
  let* m := get in
  ret (elems m s).

(** Nobody holds the mutex. *)
Definition free (m : Proc) : Prop := mu (service m) = sync.zeroRWMutex.

End ProductAPI.

(** Two products as a client might post them. *)

Module ProductExamples.
Import Go ProductAPI.

Definition apple : Product := {| ID := 0; Name := "Apple"; Price := 1 |}.
Definition banana : Product := {| ID := 77; Name := "Banana"; Price := 2 |}.

End ProductExamples.

(** ** package unicode/utf8, as far as encoding/json uses it *)

Module utf8.

Definition between (lo hi b : N) : bool := ((lo <=? b) && (b <=? hi))%N.

(** A continuation byte, 80..BF. *)
Definition continues (c : Ascii.ascii) : bool :=
  between 128 191 (Ascii.N_of_ascii c).

(** [DecodeRuneInString] on a string that starts with the byte [c]
    followed by [rest]: the width of the encoding that starts there, or
    nothing when the bytes are no encoding (the library then returns
    [RuneError] with width 1).  The second byte of a three-byte and of a
    four-byte encoding has a narrower range after E0, ED, F0 and F4,
    which excludes overlong forms, surrogates and values above
    U+10FFFF. *)
Definition rune_width (c : Ascii.ascii) (rest : string) : option nat :=
  let b := Ascii.N_of_ascii c in
  if (b <? 128)%N then Some 1%nat
  else if between 194 223 b then
    match rest with
    | String c1 _ => if continues c1 then Some 2%nat else None
    | _ => None
    end
  else if between 224 239 b then
    match rest with
    | String c1 (String c2 _) =>
        let lo := if (b =? 224)%N then 160%N else 128%N in
        let hi := if (b =? 237)%N then 159%N else 191%N in
        if between lo hi (Ascii.N_of_ascii c1) && continues c2
        then Some 3%nat else None
    | _ => None
    end
  else if between 240 244 b then
    match rest with
    | String c1 (String c2 (String c3 _)) =>
        let lo := if (b =? 240)%N then 144%N else 128%N in
        let hi := if (b =? 244)%N then 143%N else 191%N in
        if between lo hi (Ascii.N_of_ascii c1) && continues c2 && continues c3
        then Some 4%nat else None
    | _ => None
    end
  else None.

(** [ValidString] from a place [skip] bytes before the next encoding
    starts. *)
Fixpoint valid_from (skip : nat) (s : string) : bool :=
  match s with
  | EmptyString => true
  | String c rest =>
      match skip with
      | S k => valid_from k rest
      | O =>
          match rune_width c rest with
          | Some n => valid_from (pred n) rest
          | None => false
          end
      end
  end.

Definition ValidString (s : string) : bool := valid_from 0 s.

(** The encoding of U+FFFD, the replacement character: EF BF BD. *)
Definition RuneError : string :=
  String (Ascii.ascii_of_N 239)
    (String (Ascii.ascii_of_N 191) (String (Ascii.ascii_of_N 189) EmptyString)).

End utf8.

(** ** package encoding/json, as far as the handlers use it

    The handlers decode a request body into a [Product] and encode a
    slice of [Product]s.  The library is not part of the repository; what
    follows is its documented behaviour on a body whose bytes have already
    been split into JSON values. *)

Module json.
Import ProductAPI.

Inductive value :=
| Null
| Bool (b : bool)
| Int (z : Z)          (* a number literal that is a decimal integer *)
| Frac                 (* any other number literal: fraction or exponent *)
| Str (s : string)     (* a string literal, as the Go string it stands for *)
| Arr (l : list value)
| Obj (members : list (string * value)).

Inductive error :=
| EOF
| SyntaxError
| UnmarshalTypeError (Value Field : string).

(** What the unread bytes of a stream hold, up to the end of the first
    JSON value. *)
Inductive content := Nothing | Garbage | Text (v : value).

Definition kind (v : value) : string :=
  match v with
  | Null => "null"
  | Bool _ => "bool"
  | Int _ | Frac => "number"
  | Str _ => "string"
  | Arr _ => "array"
  | Obj _ => "object"
  end.

Definition fold_byte (c : Ascii.ascii) : Ascii.ascii :=
  let n := Ascii.N_of_ascii c in
  if ((97 <=? n) && (n <=? 122))%N then Ascii.ascii_of_N (n - 32) else c.

(** [foldName]: ASCII letters to upper case.  (The library also folds a
    few non-ASCII letters onto [K] and [S]; no field of [Product] has
    either letter, so bytes decide.) *)
Fixpoint foldName (s : string) : string :=
  match s with
  | EmptyString => EmptyString
  | String c s => String (fold_byte c) (foldName s)
  end.

(** A member name selects the field whose tag it equals, case ignored. *)
Definition names (key tag : string) : bool :=
  String.eqb (foldName key) (foldName tag).

(** Store a JSON value into an [int] field. *)
Definition to_int (field : string) (v : value) (old : Z) : Z * option error :=
  match v with
  | Null => (old, None)
  | Int z =>
      if (GoInt.min_int <=? z) && (z <=? GoInt.max_int) then (z, None)
      else (old, Some (UnmarshalTypeError "number" field))
  | _ => (old, Some (UnmarshalTypeError (kind v) field))
  end.

(** Store a JSON value into a [string] field. *)
Definition to_string (field : string) (v : value) (old : string)
  : string * option error :=
  match v with
  | Null => (old, None)
  | Str s => (s, None)
  | _ => (old, Some (UnmarshalTypeError (kind v) field))
  end.

(** One member of an object: set the field it names, skip it when it
    names none. *)
Definition member (p : Product) (kv : string * value) : Product * option error :=
  let '(key, v) := kv in
  if names key "id" then
    let '(z, e) := to_int "id" v (ID p) in
    ({| ID := z; Name := Name p; Price := Price p |}, e)
  else if names key "name" then
    let '(s, e) := to_string "name" v (Name p) in
    ({| ID := ID p; Name := s; Price := Price p |}, e)
  else if names key "price" then
    let '(z, e) := to_int "price" v (Price p) in
    ({| ID := ID p; Name := Name p; Price := z |}, e)
  else (p, None).

(** The first error is kept; decoding goes on. *)
Definition save (saved new : option error) : option error :=
  match saved with
  | Some e => Some e
  | None => new
  end.

(** [Unmarshal] of one value into a [Product] variable holding [p]. *)
Definition unmarshal (v : value) (p : Product) : Product * option error :=
  match v with
  | Null => (p, None)
  | Obj members =>
      foldl (λ acc kv, let '(p', e) := member (fst acc) kv in (p', save (snd acc) e))
            (p, None) members
  | _ => (p, Some (UnmarshalTypeError (kind v) ""))
  end.

(** [Decode(&p)] on a stream holding [c]. *)
Definition decode (c : content) (p : Product) : Product * option error :=
  match c with
  | Nothing => (p, Some EOF)
  | Garbage => (p, Some SyntaxError)
  | Text v => unmarshal v p
  end.

(** A string as the encoder writes it: coerced to valid UTF-8, every
    byte that starts no encoding replaced by U+FFFD. *)
Fixpoint coerce_from (skip : nat) (s : string) : string :=
  match s with
  | EmptyString => EmptyString
  | String c rest =>
      match skip with
      | S k => String c (coerce_from k rest)
      | O =>
          match utf8.rune_width c rest with
          | Some n => String c (coerce_from (pred n) rest)
          | None => utf8.RuneError +:+ coerce_from 0 rest
          end
      end
  end.

Definition coerce (s : string) : string := coerce_from 0 s.

(** The encoding of a [Product] and of a non-nil slice of them. *)
Definition of_Product (p : Product) : value :=
  Obj [("id", Int (ID p)); ("name", Str (coerce (Name p))); ("price", Int (Price p))].

Definition of_Products (l : list Product) : value := Arr (of_Product <$> l).

End json.

(** ** package net/http, as far as the handlers use it *)

Module http.

Definition MethodGet : string := "GET".
Definition MethodPost : string := "POST".

Definition StatusOK : Z := 200.
Definition StatusCreated : Z := 201.
Definition StatusBadRequest : Z := 400.
Definition StatusMethodNotAllowed : Z := 405.

(** What a handler writes to the response body. *)
Inductive chunk :=
| Bytes (s : string)
| Line (s : string)             (* [fmt.Fprintln(w, s)] *)
| ErrorLine (e : json.error)    (* [fmt.Fprintln(w, e.Error())] *)
| Encoded (v : json.value).     (* [json.NewEncoder(w).Encode(..)] *)

Record ResponseWriter :=
  { Header : gmap string string; status : option Z; written : list chunk }.

Definition blank : ResponseWriter :=
  {| Header := ∅; status := None; written := [] |}.

(** The request body is a stream: reading consumes it. *)
Inductive ReadCloser := Unread (c : json.content) | Drained.

Record Request := { Method : string; Body : ReadCloser }.

Definition Header_Set (k v : string) (w : ResponseWriter) : ResponseWriter :=
  {| Header := <[k := v]> (Header w); status := status w; written := written w |}.

Definition Header_Del (k : string) (w : ResponseWriter) : ResponseWriter :=
  {| Header := delete k (Header w); status := status w; written := written w |}.

(** The first status code wins. *)
Definition WriteHeader (code : Z) (w : ResponseWriter) : ResponseWriter :=
  match status w with
  | Some _ => w
  | None => {| Header := Header w; status := Some code; written := written w |}
  end.

(** Writing a body without a status code sends [StatusOK]. *)
Definition Write (c : chunk) (w : ResponseWriter) : ResponseWriter :=
  let w := WriteHeader StatusOK w in
  {| Header := Header w; status := status w; written := written w ++ [c] |}.

(** [http.Error(w, .., code)], the message being the chunk [c]. *)
Definition Error (c : chunk) (code : Z) (w : ResponseWriter) : ResponseWriter :=
  let w := Header_Del "Content-Length" w in
  let w := Header_Set "Content-Type" "text/plain; charset=utf-8" w in
  let w := Header_Set "X-Content-Type-Options" "nosniff" w in
  let w := WriteHeader code w in
  Write c w.

End http.

(** ** The product service: handlers *)

Module Handlers.
Import Go ProductAPI.

(** What a handler invocation can reach: the process memory, the
    response writer [w] and the request [r]. *)
Record Conn := { proc : Proc; w : http.ResponseWriter; r : http.Request }.

Definition on_proc {A} (c : M Proc A) : M Conn A :=
  λ s, match c (proc s) with
       | Some (a, m) => Some (a, {| proc := m; w := w s; r := r s |})
       | None => None
       end.

Definition on_w (f : http.ResponseWriter → http.ResponseWriter) : M Conn unit :=
  modify (λ s, {| proc := proc s; w := f (w s); r := r s |}).

(** [json.NewDecoder(r.Body).Decode(&p)]: reads the body. *)
Definition Decode (p : Product) : M Conn (Product * option json.error) :=
  λ s, let c := match http.Body (r s) with
                | http.Unread c => c
                | http.Drained => json.Nothing
                end in
       Some (json.decode c p,
             {| proc := proc s; w := w s;
                r := {| http.Method := http.Method (r s); http.Body := http.Drained |} |}).

(** [var p Product] *)
Definition zero : Product := {| ID := 0; Name := ""; Price := 0 |}.

Definition createProductHandler : M Conn unit :=
  let* s := get in
  if negb (String.eqb (http.Method (r s)) http.MethodPost) then
    on_w (http.Error (http.Line "Method not allowed") http.StatusMethodNotAllowed)
  else
    let* (p, err) := Decode zero in
    match err with
    | Some e =>
        on_w (http.Error (http.ErrorLine e) http.StatusBadRequest)
    | None =>
        on_proc (CreateProduct p) ;;
        on_w (http.WriteHeader http.StatusCreated) ;;
        on_w (http.Write (http.Bytes "Product created successfully"))
    end.

Definition getProductsHandler (visit : list (Z * Product)) : M Conn unit :=
  let* s := get in
  if negb (String.eqb (http.Method (r s)) http.MethodGet) then
    on_w (http.Error (http.Line "Method not allowed") http.StatusMethodNotAllowed)
  else
    let* products := on_proc (call_GetProducts visit) in
    on_w (http.Header_Set "Content-Type" "application/json") ;;
    let* s := get in
    on_w (http.Write (http.Encoded (json.of_Products (elems (proc s) products)))).

(** A request arriving at a handler: fresh writer, unread body. *)
Definition arrive (m : Proc) (method : string) (c : json.content) : Conn :=
  {| proc := m; w := http.blank;
     r := {| http.Method := method; http.Body := http.Unread c |} |}.

End Handlers.

(** ** The product service under concurrent callers

    [net/http] runs every handler invocation in a goroutine of its own.
    A goroutine executing a method is a program point, written after the
    statement it executes next, and the method's local variables.  The
    goroutines share the process memory and interleave between
    statements. *)

Module Goroutines.
Import Go ProductAPI.

Inductive create_pc :=
| c_Lock       (* ps.mu.Lock() *)
| c_setID      (* newProduct.ID = ps.nextID *)
| c_store      (* ps.products[newProduct.ID] = newProduct *)
| c_incr       (* ps.nextID++ *)
| c_Printf     (* fmt.Printf(..) *)
| c_Unlock     (* the deferred ps.mu.Unlock() *)
| c_done.

Inductive list_pc :=
| l_call       (* the receiver is copied from the shared struct *)
| l_RLock      (* ps.mu.RLock() *)
| l_make       (* products := make(..) *)
| l_range      (* for _, p := range ps.products { .. } *)
| l_RUnlock    (* the deferred ps.mu.RUnlock() *)
| l_done.

(** A goroutine in [CreateProduct] has its parameter.  A goroutine in
    [GetProducts] has its receiver [ps]: the mutex and the counter are
    its own copies, while the copied [products] field still refers to
    the one map of the shared struct; and it has the local [products]. *)
Inductive goroutine :=
| Creating (pc : create_pc) (newProduct : Product)
| Listing (pc : list_pc) (ps_mu : sync.RWMutex) (ps_nextID : Z)
          (products : option slice).

Record state := { mem : Proc; pool : list goroutine }.

Definition advance {A} (g : A → goroutine) (c : M Proc A) (m : Proc)
  : option (goroutine * Proc) :=
  match c m with
  | Some (a, m') => Some (g a, m')
  | None => None
  end.

(** One statement of one goroutine.  No result: the goroutine waits
    (or has returned).  A statement is one step, so a [range] loop and a
    store in the map happen one after the other in every run of this
    machine.  Where the two overlap in time the Go runtime may stop the
    process ("concurrent map iteration and map write"); such an
    execution is not among the runs. *)
Definition exec (g : goroutine) (m : Proc) : option (goroutine * Proc) :=
  match g with
  | Creating c_Lock p =>
      advance (λ _, Creating c_setID p) ps_mu_Lock m
  | Creating c_setID p =>
      Some (Creating c_store (set_ID (nextID (service m)) p), m)
  | Creating c_store p =>
      advance (λ _, Creating c_incr p) (products_store (ID p) p) m
  | Creating c_incr p =>
      advance (λ _, Creating c_Printf p) nextID_incr m
  | Creating c_Printf p =>
      advance (λ _, Creating c_Unlock p) (Print (created_line (ID p) (Name p))) m
  | Creating c_Unlock p =>
      advance (λ _, Creating c_done p) ps_mu_Unlock m
  | Creating c_done _ => None
  | Listing l_call _ _ s =>
      Some (Listing l_RLock (mu (service m)) (nextID (service m)) s, m)
  | Listing l_RLock l n s =>
      l' ← sync.RLock l; Some (Listing l_make l' n s, m)
  | Listing l_make l n _ =>
      advance (λ s, Listing l_range l n (Some s)) make m
  | Listing l_range l n (Some s) =>
      advance (λ _, Listing l_RUnlock l n (Some s)) (collect s (some_order m)) m
  | Listing l_range _ _ None => None
  | Listing l_RUnlock l n s =>
      l' ← sync.RUnlock l; Some (Listing l_done l' n s, m)
  | Listing l_done _ _ _ => None
  end.

(** Goroutine [i] executes its next statement. *)
Definition step (i : nat) (σ : state) : option state :=
  g ← pool σ !! i;
  gm ← exec g (mem σ);
  Some {| mem := snd gm; pool := <[i := fst gm]> (pool σ) |}.

(** A schedule names the goroutine that moves at each turn. *)
Fixpoint run (sched : list nat) (σ : state) : option state :=
  match sched with
  | [] => Some σ
  | i :: sched => σ' ← step i σ; run sched σ'
  end.

Inductive call := go_CreateProduct (p : Product) | go_GetProducts.

Definition spawn (c : call) : goroutine :=
  match c with
  | go_CreateProduct p => Creating c_Lock p
  | go_GetProducts => Listing l_call sync.zeroRWMutex 0 None
  end.

(** The calls start on a service nobody is using. *)
Definition start (m : Proc) (calls : list call) : state :=
  {| mem := m; pool := spawn <$> calls |}.

(** Between [Lock] and [Unlock] of [CreateProduct]. *)
Definition in_Lock_section (g : goroutine) : bool :=
  match g with
  | Creating (c_setID | c_store | c_incr | c_Printf | c_Unlock) _ => true
  | _ => false
  end.

(** Between [RLock] and [RUnlock] of [GetProducts]. *)
Definition in_RLock_section (g : goroutine) : bool :=
  match g with
  | Listing (l_make | l_range | l_RUnlock) _ _ _ => true
  | _ => false
  end.

Definition holders (pool : list goroutine) : nat :=
  length (filter (λ g, in_Lock_section g = true) pool).

Definition weight (b : bool) : nat := if b then 1%nat else 0%nat.

(** The mutex of the shared service accounts for the goroutines inside
    the write section: one when it is held for writing, none otherwise;
    and it never has readers. *)
Definition accounted (σ : state) : Prop :=
  sync.readers (mu (service (mem σ))) = 0%nat ∧
  holders (pool σ) = weight (sync.writer (mu (service (mem σ)))).

(** What the claim of serialised access asks of a state: a goroutine
    inside the write section excludes every other goroutine from both
    sections. *)
Definition serialised (σ : state) : Prop :=
  ∀ i j gi gj,
    i ≠ j → pool σ !! i = Some gi → pool σ !! j = Some gj →
    in_Lock_section gi = true →
    in_Lock_section gj = false ∧ in_RLock_section gj = false.

End Goroutines.

(** ** Identities under concurrent [CreateProduct]s

    What relates a state of the goroutines to the map and the counter
    of the service. *)

Module Identities.
Import Go ProductAPI Goroutines.

(** The goroutines of a pool that satisfy [f]. *)
Definition tally (f : goroutine → bool) (pool : list goroutine) : nat :=
  length (filter (λ g, f g = true) pool).

(** Past [ps.nextID++]. *)
Definition has_incremented (g : goroutine) : bool :=
  match g with
  | Creating (c_Printf | c_Unlock | c_done) _ => true
  | _ => false
  end.

(** Past [newProduct.ID = ps.nextID]. *)
Definition has_ID (g : goroutine) : bool :=
  match g with
  | Creating (c_store | c_incr | c_Printf | c_Unlock | c_done) _ => true
  | _ => false
  end.

Definition is_create (c : call) : bool :=
  match c with
  | go_CreateProduct _ => true
  | go_GetProducts => false
  end.

(** The goroutine of a call: same method, and for [CreateProduct] the
    name and price it was called with. *)
Definition runs (c : call) (g : goroutine) : Prop :=
  match c, g with
  | go_CreateProduct p0, Creating _ p => Name p = Name p0 ∧ Price p = Price p0
  | go_GetProducts, Listing _ _ _ _ => True
  | _, _ => False
  end.

(** Where the record of a goroutine stands with respect to the counter
    [N] and the map [P]. *)
Definition placed (N : Z) (P : gmap Z Product) (g : goroutine) : Prop :=
  match g with
  | Creating c_store p => ID p = N
  | Creating c_incr p => ID p = N ∧ P !! N = Some p
  | Creating (c_Printf | c_Unlock | c_done) p => 1 ≤ ID p < N ∧ P !! ID p = Some p
  | _ => True
  end.

Record ordered (σ : state) : Prop :=
  { ord_next :
      nextID (service (mem σ)) = 1 + Z.of_nat (tally has_incremented (pool σ));
    ord_keys :
      ∀ k, is_Some (products (service (mem σ)) !! k) →
           1 ≤ k ≤ nextID (service (mem σ));
    ord_dense :
      ∀ k, 1 ≤ k < nextID (service (mem σ)) →
           is_Some (products (service (mem σ)) !! k);
    ord_pending :
      is_Some (products (service (mem σ)) !! nextID (service (mem σ))) →
      ∃ i p, pool σ !! i = Some (Creating c_incr p);
    ord_ids :
      ∀ k p, products (service (mem σ)) !! k = Some p → ID p = k;
    ord_placed :
      ∀ i g, pool σ !! i = Some g →
             placed (nextID (service (mem σ))) (products (service (mem σ))) g;
    ord_distinct :
      ∀ i j pci pi pcj pj,
        i ≠ j →
        pool σ !! i = Some (Creating pci pi) → pool σ !! j = Some (Creating pcj pj) →
        has_ID (Creating pci pi) = true → has_ID (Creating pcj pj) = true →
        ID pi ≠ ID pj }.

End Identities.

(** ** The item store under concurrent callers *)

Module StoreGoroutines.
Import Go ItemStore.

Inductive add_pc :=
| a_Lock       (* s.mu.Lock() *)
| a_store      (* s.items[item.Name] = item *)
| a_Unlock     (* the deferred s.mu.Unlock() *)
| a_done.

Inductive get_pc :=
| g_Lock       (* s.mu.Lock() *)
| g_lookup     (* item, ok := s.items[name] *)
| g_return     (* if !ok { return errors.New(..), nil }; return nil, &item *)
| g_Unlock     (* the deferred s.mu.Unlock() *)
| g_done.

(** A goroutine in [AddItem] has its parameter.  A goroutine in
    [GetItem] has its parameter, the outcome of the lookup and, once
    evaluated, the results it will return. *)
Inductive goroutine :=
| Adding (pc : add_pc) (item : Item)
| Getting (pc : get_pc) (name : string) (found : option Item)
          (results : option (option error * option loc)).

Record state := { mem : Mem; pool : list goroutine }.

Definition advance {A} (g : A → goroutine) (c : M Mem A) (m : Mem)
  : option (goroutine * Mem) :=
  match c m with
  | Some (a, m') => Some (g a, m')
  | None => None
  end.

Definition exec (g : goroutine) (m : Mem) : option (goroutine * Mem) :=
  match g with
  | Adding a_Lock item =>
      advance (λ _, Adding a_store item) mu_Lock m
  | Adding a_store item =>
      advance (λ _, Adding a_Unlock item) (items_store (Name item) item) m
  | Adding a_Unlock item =>
      advance (λ _, Adding a_done item) mu_Unlock m
  | Adding a_done _ => None
  | Getting g_Lock name found res =>
      advance (λ _, Getting g_lookup name found res) mu_Lock m
  | Getting g_lookup name _ res =>
      Some (Getting g_return name (items (store m) !! name) res, m)
  | Getting g_return name None _ =>
      Some (Getting g_Unlock name None
                    (Some (Some (errors_New "item not found"), None)), m)
  | Getting g_return name (Some item) _ =>
      advance (λ p, Getting g_Unlock name (Some item) (Some (None, Some p)))
              (address_of item) m
  | Getting g_Unlock name found res =>
      advance (λ _, Getting g_done name found res) mu_Unlock m
  | Getting g_done _ _ _ => None
  end.

Definition step (i : nat) (σ : state) : option state :=
  g ← pool σ !! i;
  gm ← exec g (mem σ);
  Some {| mem := snd gm; pool := <[i := fst gm]> (pool σ) |}.

Fixpoint run (sched : list nat) (σ : state) : option state :=
  match sched with
  | [] => Some σ
  | i :: sched => σ' ← step i σ; run sched σ'
  end.

Inductive call := go_AddItem (item : Item) | go_GetItem (name : string).

Definition spawn (c : call) : goroutine :=
  match c with
  | go_AddItem item => Adding a_Lock item
  | go_GetItem name => Getting g_Lock name None None
  end.

Definition start (m : Mem) (calls : list call) : state :=
  {| mem := m; pool := spawn <$> calls |}.

(** Between [Lock] and [Unlock]. *)
Definition in_section (g : goroutine) : bool :=
  match g with
  | Adding (a_store | a_Unlock) _ => true
  | Getting (g_lookup | g_return | g_Unlock) _ _ _ => true
  | _ => false
  end.

Definition returned (g : goroutine) : bool :=
  match g with
  | Adding a_done _ | Getting g_done _ _ _ => true
  | _ => false
  end.

Definition holders (pool : list goroutine) : nat :=
  length (filter (λ g, in_section g = true) pool).

Definition unit_of (b : bool) : nat := if b then 1%nat else 0%nat.

(** The mutex is held exactly when one goroutine is in its section. *)
Definition accounted (σ : state) : Prop :=
  holders (pool σ) = if sync.locked (mu (store (mem σ))) then 1%nat else 0%nat.

(** Past [s.items[item.Name] = item]. *)
Definition has_stored (g : goroutine) : option Item :=
  match g with
  | Adding (a_Unlock | a_done) item => Some item
  | _ => None
  end.

(** Every item whose [AddItem] is past its store has, under its name,
    the item of an [AddItem] that is past its store. *)
Definition kept (σ : state) : Prop :=
  ∀ i g item,
    pool σ !! i = Some g → has_stored g = Some item →
    ∃ j gj itemj,
      pool σ !! j = Some gj ∧ has_stored gj = Some itemj ∧
      Name itemj = Name item ∧
      items (store (mem σ)) !! Name item = Some itemj.

End StoreGoroutines.

(** ** Pointers to [int] variables

    [addOne], [swap] and [updateEngineNumber] receive the addresses of
    [int] variables of their caller.  A [*int] is nil or the address of a
    variable; reading or writing through nil panics, and the call does
    not return. *)

Module Pointers.
Import Go.

Definition loc := positive.

(** The [int] variables whose address has been taken. *)
Abbreviation Vars := (gmap loc Z).

(** [*p] as an operand *)
Definition load (p : option loc) : M Vars Z :=
  λ h, match p with
       | Some l => match h !! l with
                   | Some v => Some (v, h)
                   | None => None
                   end
       | None => None
       end.

(** [*p = v] *)
Definition store (p : option loc) (v : Z) : M Vars unit :=
  λ h, match p with
       | Some l => match h !! l with
                   | Some _ => Some (tt, <[l := v]> h)
                   | None => None
                   end
       | None => None
       end.

Definition addOne (num : option loc) : M Vars unit :=
  let* v := load num in
  store num (GoInt.wrap (v + 1)).

(** [*a, *b = *b, *a]: both operands on the right are read before
    either assignment is carried out. *)
Definition swap (a b : option loc) : M Vars unit :=
  let* vb := load b in
  let* va := load a in
  store a vb ;;
  store b va.

(** [egine_number] is [*int] under another name. *)
Definition updateEngineNumber (p : option loc) : M Vars unit :=
  let* v := load p in
  store p (GoInt.wrap (v + 1)).

Record Counter := { count : Z }.

(** The [Counter] variables whose address has been taken. *)
Abbreviation Counters := (gmap loc Counter).

(** Pointer receiver: [c.count++] on the variable behind [c]. *)
Definition Increment (c : option loc) : M Counters unit :=
  λ h, match c with
       | Some l => match h !! l with
                   | Some k => Some (tt, <[l := {| count := GoInt.incr (count k) |}]> h)
                   | None => None
                   end
       | None => None
       end.

(** Value receiver: the method works on a copy of the [Counter]. *)
Definition Value (c : Counter) : Z := count c.

(** [x.Value()] for the variable [x] at [l]: the receiver is copied out
    of the variable. *)
Definition call_Value (l : loc) : M Counters Z :=
  λ h, match h !! l with
       | Some k => Some (Value k, h)
       | None => None
       end.

(** The same call [n] times in a row. *)
Definition times {S} (n : nat) (c : M S unit) : M S unit :=
  Nat.iter n (λ k, c ;; k) (ret tt).

End Pointers.

(** ** Structs reached through pointers

    The methods of [LargeData], [RequestData], [ResourceManager] and
    [DataManager] all have pointer receivers and allocate what their
    nil fields lack.  The memory maps an address to the variable that
    lives there.  A slice is a window on a backing array, which is a
    variable of its own and may be shared with other slices: [append]
    writes into the array where the slice has room and moves the
    elements to a new array where it has none.  A [float64] is given by
    its bits: the methods only copy it. *)

Module Patterns.
Import Go.

Definition loc := positive.

Record float64 := { bits : Z }.

Record ServiceConfig := { Host : string; Port : Z }.

Record Metrics := { CPUUsage : float64; MemoryMB : float64 }.

Record LargeData := {
  Name : string;
  SizeMB : Z;
  Config : option loc;      (* *ServiceConfig *)
  Metrics' : option loc     (* *Metrics *)
}.

Record RequestData := {
  UserID : option loc;      (* *int *)
  Status : option loc;      (* *string *)
  Payload : string
}.

Record ResourceManager := {
  ID : string;
  ResourceIDs : option loc  (* *[]string *)
}.

Record DataManager := { Items : option loc  (* *[]*LargeData *) }.

(** An element of one of the two kinds of slice: a [string] or a
    [*LargeData]. *)
Inductive elem := a_str (s : string) | a_ptr (p : option loc).

(** A slice value: its backing array, the index there of its first
    element, its length and its capacity.  A slice without capacity
    needs no array. *)
Record slice := { array : option loc; first : nat; len : nat; cap : nat }.

Inductive variable :=
| an_int (n : Z)
| a_string (s : string)
| a_ServiceConfig (c : ServiceConfig)
| a_Metrics (m : Metrics)
| a_LargeData (d : LargeData)
| a_RequestData (rd : RequestData)
| a_ResourceManager (rm : ResourceManager)
| a_DataManager (dm : DataManager)
| a_slice (s : slice)
| an_array (l : list elem).

Abbreviation Mem := (gmap loc variable).

(** [&T{..}], [new(T)], and a parameter whose address is taken: a
    variable at an address nothing else has. *)
Definition alloc (v : variable) : M Mem loc :=
  λ h, let l := fresh (dom h) in Some (l, <[l := v]> h).

(** Reading through a pointer; through nil it panics. *)
Definition load (p : option loc) : M Mem variable :=
  λ h, match p with
       | Some l => match h !! l with
                   | Some v => Some (v, h)
                   | None => None
                   end
       | None => None
       end.

(** Writing through a pointer; through nil it panics. *)
Definition store (p : option loc) (v : variable) : M Mem unit :=
  λ h, match p with
       | Some l => match h !! l with
                   | Some _ => Some (tt, <[l := v]> h)
                   | None => None
                   end
       | None => None
       end.

Definition stuck {A} : M Mem A := λ _, None.

Definition load_Metrics (p : option loc) : M Mem Metrics :=
  let* v := load p in
  match v with a_Metrics m => ret m | _ => stuck end.

Definition load_LargeData (p : option loc) : M Mem LargeData :=
  let* v := load p in
  match v with a_LargeData d => ret d | _ => stuck end.

Definition load_RequestData (p : option loc) : M Mem RequestData :=
  let* v := load p in
  match v with a_RequestData rd => ret rd | _ => stuck end.

Definition load_ResourceManager (p : option loc) : M Mem ResourceManager :=
  let* v := load p in
  match v with a_ResourceManager rm => ret rm | _ => stuck end.

Definition load_DataManager (p : option loc) : M Mem DataManager :=
  let* v := load p in
  match v with a_DataManager dm => ret dm | _ => stuck end.

Definition load_slice (p : option loc) : M Mem slice :=
  let* v := load p in
  match v with a_slice s => ret s | _ => stuck end.

Definition load_array (p : option loc) : M Mem (list elem) :=
  let* v := load p in
  match v with an_array l => ret l | _ => stuck end.

(** [Metrics{}] *)
Definition zeroMetrics : Metrics :=
  {| CPUUsage := {| bits := 0 |}; MemoryMB := {| bits := 0 |} |}.

Definition UpdateMetrics (d : option loc) (cpu mem : float64) : M Mem unit :=
  let* x := load_LargeData d in
  match Metrics' x with
  | None =>
      let* p := alloc (a_Metrics zeroMetrics) in
      store d (a_LargeData {| Name := Name x; SizeMB := SizeMB x;
                              Config := Config x; Metrics' := Some p |})
  | Some _ => ret tt
  end ;;
  let* x := load_LargeData d in
  let* m := load_Metrics (Metrics' x) in
  store (Metrics' x) (a_Metrics {| CPUUsage := cpu; MemoryMB := MemoryMB m |}) ;;
  let* x := load_LargeData d in
  let* m := load_Metrics (Metrics' x) in
  store (Metrics' x) (a_Metrics {| CPUUsage := CPUUsage m; MemoryMB := mem |}).

(** [rd.UserID = &id]: the parameter [id] is a variable of the call. *)
Definition SetUserID (rd : option loc) (id : Z) : M Mem unit :=
  let* p := alloc (an_int id) in
  let* x := load_RequestData rd in
  store rd (a_RequestData {| UserID := Some p; Status := Status x;
                             Payload := Payload x |}).

Definition IsUserIDSet (rd : option loc) : M Mem bool :=
  let* x := load_RequestData rd in
  ret (match UserID x with Some _ => true | None => false end).

(** [[]string{}] and [[]*LargeData{}] *)
Definition empty : slice := {| array := None; first := 0; len := 0; cap := 0 |}.

(** The elements of a slice, read from its array. *)
Definition elements (s : slice) : M Mem (list elem) :=
  match array s with
  | None => ret []
  | Some a =>
      let* l := load_array (Some a) in
      ret (take (len s) (drop (first s) l))
  end.

(** The zero value of the type of an element. *)
Definition zero_of (x : elem) : elem :=
  match x with
  | a_str _ => a_str ""
  | a_ptr _ => a_ptr None
  end.

Section append.

(** The capacity the runtime gives the new array when a slice of the
    given capacity is full.  The language fixes only that the new array
    is large enough. *)
Variable grow : nat → nat.

(** [append(s, x)].  With room, [x] is written into the array behind
    the last element, where any slice on that array sees it.  Without
    room, the elements and [x] go to a new array. *)
Definition append (s : slice) (x : elem) : M Mem slice :=
  if decide (len s < cap s)%nat then
    let* l := load_array (array s) in
    store (array s) (an_array (<[(first s + len s)%nat := x]> l)) ;;
    ret {| array := array s; first := first s; len := S (len s); cap := cap s |}
  else
    let* old := elements s in
    let c := grow (cap s) in
    let* a := alloc (an_array (old ++ x :: replicate (c - S (len s)) (zero_of x))) in
    ret {| array := Some a; first := 0; len := S (len s); cap := c |}.

Definition AddResource (rm : option loc) (id : string) : M Mem unit :=
  let* x := load_ResourceManager rm in
  match ResourceIDs x with
  | None =>
      let* p := alloc (a_slice empty) in
      store rm (a_ResourceManager {| ID := ID x; ResourceIDs := Some p |})
  | Some _ => ret tt
  end ;;
  let* x := load_ResourceManager rm in
  let* s := load_slice (ResourceIDs x) in
  let* s' := append s (a_str id) in
  store (ResourceIDs x) (a_slice s').

Definition AddItem (dm : option loc) (name : string) (size : Z) : M Mem unit :=
  let* x := load_DataManager dm in
  match Items x with
  | None =>
      let* p := alloc (a_slice empty) in
      store dm (a_DataManager {| Items := Some p |})
  | Some _ => ret tt
  end ;;
  let* newItem := alloc (a_LargeData {| Name := name; SizeMB := size;
                                        Config := None; Metrics' := None |}) in
  let* x := load_DataManager dm in
  let* s := load_slice (Items x) in
  let* s' := append s (a_ptr (Some newItem)) in
  store (Items x) (a_slice s').



End append.

(** [*request.UserID], as [main] reads it. *)
Definition read_UserID (rd : option loc) : M Mem Z :=
  let* x := load_RequestData rd in
  let* v := load (UserID x) in
  match v with an_int n => ret n | _ => stuck end.

(** [*resourceMgr.ResourceIDs], as [main] reads it. *)
Definition read_ResourceIDs (rm : option loc) : M Mem (list elem) :=
  let* x := load_ResourceManager rm in
  let* s := load_slice (ResourceIDs x) in
  elements s.

(** [*largeData.Metrics], as [main] reads it. *)
Definition read_Metrics (d : option loc) : M Mem Metrics :=
  let* x := load_LargeData d in
  load_Metrics (Metrics' x).








(** One growth, for running examples: from nothing to one element, then
    twice the capacity. *)
Definition doubling (c : nat) : nat := Nat.max 1 (2 * c).

End Patterns.

(** ** A pointer to an array

    [bite] is [*[32]byte].  [processBite] prints the array behind it
    twice, once with [range] and once by index. *)

Module Arrays.
Import Go.

Definition loc := positive.

(** The [[32]byte] variables whose address has been taken, and what the
    program has printed, one entry for each call of [fmt]. *)
Record World := { arrays : gmap loc (list Z); stdout : list string }.

Definition newline : string := String (Ascii.ascii_of_nat 10) EmptyString.

Definition Print (text : string) : M World unit :=
  modify (λ w, {| arrays := arrays w; stdout := stdout w ++ [text] |}).

(** [fmt.Println(text)] *)
Definition Println (text : string) : M World unit := Print (text +:+ newline).

(** [fmt.Printf("Index %d: %d\n", i, value)] *)
Definition index_line (i : nat) (value : Z) : string :=
  "Index " +:+ pretty (Z.of_nat i) +:+ ": " +:+ pretty value +:+ newline.

(** [*b] *)
Definition deref (b : loc) : M World (list Z) :=
  λ w, match arrays w !! b with
       | Some a => Some (a, w)
       | None => None
       end.

(** [for i, value := range *b]: the array is copied once, then walked. *)
Fixpoint range_loop (i : nat) (a : list Z) : M World unit :=
  match a with
  | [] => ret tt
  | value :: rest => Print (index_line i value) ;; range_loop (S i) rest
  end.

(** [for i := ..; i < len( *b ); i++] with [todo] rounds left: each round
    reads [( *b )[i]] from the array itself. *)
Fixpoint index_loop (b : loc) (todo i : nat) : M World unit :=
  match todo with
  | O => ret tt
  | S todo' =>
      let* a := deref b in
      match a !! i with
      | Some value => Print (index_line i value) ;; index_loop b todo' (S i)
      | None => λ _, None
      end
  end.

Definition processBite (b : option loc) : M World unit :=
  Println "Processing bite..." ;;
  match b with
  | None => Println "bite is nil, cannot loop"
  | Some l =>
      let* a := deref l in
      range_loop 0 a ;;
      Println (newline +:+ "Using traditional for loop:") ;;
      let* a := deref l in
      index_loop l (length a) 0
  end.

End Arrays.

(** ** The product service: [main]

    [http.HandleFunc] registers a handler under a pattern in the default
    mux and panics when the pattern is taken. *)

Module Server.

(** The two closures [main] builds over the one [*ProductService]. *)
Inductive handler := the_createProductHandler | the_getProductsHandler.

(** The patterns of the default mux, and what the program has printed. *)
Record Program := { mux : gmap string handler; stdout : list string }.

(** How far [main] gets: to [http.ListenAndServe], or to a panic. *)
Inductive outcome := Listening (s : Program) | Panicked (s : Program).

Definition start : Program := {| mux := ∅; stdout := [] |}.

Definition HandleFunc (pattern : string) (h : handler) (s : Program)
    (k : Program → outcome) : outcome :=
  match mux s !! pattern with
  | Some _ => Panicked s
  | None => k {| mux := <[pattern := h]> (mux s); stdout := stdout s |}
  end.

Definition Println (text : string) (s : Program) (k : Program → outcome) : outcome :=
  k {| mux := mux s; stdout := stdout s ++ [text +:+ Arrays.newline] |}.

Definition ListenAndServe (s : Program) : outcome := Listening s.

Definition main (s : Program) : outcome :=
  HandleFunc "/products" the_createProductHandler s (λ s,
  HandleFunc "/products" the_getProductsHandler s (λ s,
  Println "Server is running on http://localhost:8080" s (λ s,
  ListenAndServe s))).

End Server.

(** * Properties *)

(** ** Runs of the programs *)

Module ItemStoreRuns.
Import Go ItemStore ItemStoreExamples.

Example main_stocks :
  (AddItem apple ;; AddItem banana) boot = Some (tt, stocked).
Proof. reflexivity. Qed.

Example get_apple :
  GetItem_value "Apple" stocked
  = Some ((None, Some apple),
          {| store := store stocked; heap := {[ 1%positive := apple ]} |}).
Proof. reflexivity. Qed.

Example get_orange :
  GetItem "Orange" stocked
  = Some ((Some (errors_New "item not found"), None), stocked).
Proof. reflexivity. Qed.

End ItemStoreRuns.

Module ProductSamples.
Import Go ProductAPI ProductExamples.

Example two_creates :
  (CreateProduct apple ;; CreateProduct banana) boot
  = Some (tt,
          {| service :=
               {| products := <[2 := set_ID 2 banana]> (<[1 := set_ID 1 apple]> ∅);
                  mu := sync.zeroRWMutex;
                  nextID := 3 |};
             stdout := [created_line 1 "Apple"; created_line 2 "Banana"];
             arrays := ∅ |}).
Proof. reflexivity. Qed.

Example list_two :
  fst <$> (CreateProduct apple ;; CreateProduct banana ;;
           let* m := get in GetProducts_value (some_order m)) boot
  = Some [set_ID 2 banana; set_ID 1 apple].
Proof. vm_compute. reflexivity. Qed.

End ProductSamples.

Module HandlerRuns.
Import Go ProductAPI Handlers.

Example post_apple :
  createProductHandler
    (arrive boot "POST" (json.Text (json.Obj [("name", json.Str "Apple");
                                              ("price", json.Int 1)])))
  ≫= (λ x, Some (products (service (proc (snd x))), http.status (w (snd x))))
  = Some ({[ 1 := {| ID := 1; Name := "Apple"; Price := 1 |} ]}, Some 201).
Proof. reflexivity. Qed.

Example post_id_ignored :
  createProductHandler
    (arrive boot "POST" (json.Text (json.Obj [("ID", json.Int 40);
                                              ("Name", json.Str "Apple")])))
  ≫= (λ x, Some (products (service (proc (snd x))), http.status (w (snd x))))
  = Some ({[ 1 := {| ID := 1; Name := "Apple"; Price := 0 |} ]}, Some 201).
Proof. reflexivity. Qed.

Example put_refused :
  createProductHandler (arrive boot "PUT" json.Garbage)
  ≫= (λ x, Some (proc (snd x), http.status (w (snd x)), http.Body (r (snd x))))
  = Some (boot, Some 405, http.Unread json.Garbage).
Proof. reflexivity. Qed.

End HandlerRuns.

(** ** Go's [int] *)

Module GoIntFacts.
Import GoInt.

Lemma incr_below_max (n : Z) : min_int ≤ n < max_int → incr n = n + 1.
Proof.
  unfold incr, wrap, min_int, max_int, int_bits. intros H.
  change (2 ^ (64 - 1)) with 9223372036854775808 in *.
  change (2 ^ 64) with 18446744073709551616.
  rewrite Z.mod_small; lia.
Qed.

Lemma incr_at_max : incr max_int = min_int.
Proof. reflexivity. Qed.

End GoIntFacts.

(** ** The item store *)

Module ItemStoreFacts.
Import Go ItemStore.

Lemma AddItem_free (item : Item) (m : Mem) :
  free m →
  AddItem item m
  = Some (tt, {| store := {| items := <[Name item := item]> (items (store m));
                             mu := sync.zeroMutex |};
                 heap := heap m |}).
Proof.
  destruct m as [[its [b]] h]. unfold free. simpl. intros [= ->]. reflexivity.
Qed.

Lemma GetItem_absent (name : string) (m : Mem) :
  free m → items (store m) !! name = None →
  GetItem name m = Some ((Some (errors_New "item not found"), None), m).
Proof.
  destruct m as [[its [b]] h]. unfold free. simpl. intros [= ->] Hn.
  unfold GetItem, bind, mu_Lock, try, get. simpl. rewrite Hn. reflexivity.
Qed.

Lemma GetItem_present (name : string) (item : Item) (m : Mem) :
  free m → items (store m) !! name = Some item →
  GetItem name m
  = Some ((None, Some (fresh (dom (heap m)))),
          {| store := store m;
             heap := <[fresh (dom (heap m)) := item]> (heap m) |}).
Proof.
  destruct m as [[its [b]] h]. unfold free. simpl. intros [= ->] Hn.
  unfold GetItem, bind, mu_Lock, try, get. simpl. rewrite Hn. reflexivity.
Qed.

Lemma fresh_cell (h : gmap loc Item) : h !! fresh (dom h) = None.
Proof. apply not_elem_of_dom, is_fresh. Qed.

(** A run of [AddItem]s returns, leaves the mutex free, and stores
    exactly the names it was given. *)
Lemma adds_free (l : list Item) (m : Mem) :
  free m →
  ∃ m', adds l m = Some (tt, m') ∧ free m' ∧ heap m' = heap m ∧
        ∀ name, name ∉ Name <$> l →
                items (store m') !! name = items (store m) !! name.
Proof.
  revert m. induction l as [|item l IH]; intros m Hm.
  - exists m. repeat split; auto.
  - destruct (IH {| store := {| items := <[Name item := item]> (items (store m));
                                mu := sync.zeroMutex |};
                    heap := heap m |}) as (m' & Hrun & Hfree & Hheap & Hitems).
    { reflexivity. }
    exists m'. simpl. unfold bind at 1. rewrite (AddItem_free item m Hm).
    repeat split; auto.
    intros name Hname. apply not_elem_of_cons in Hname.
    destruct Hname as [Hne Hname]. rewrite (Hitems name Hname). simpl.
    apply lookup_insert_ne. congruence.
Qed.

End ItemStoreFacts.

Module ItemStoreClaims.
Import Go ItemStore ItemStoreFacts ItemStoreExamples.

(** C6.  [GetItem] on a name that is absent from the store -- in
    particular a name that no [AddItem] since the store was made has
    carried -- returns the error "item not found" and a nil pointer, and
    leaves the memory as it was: no [Item], zero or other, is produced. *)
Theorem GetItem_absent_NotFound :
  ∀ (m : Mem) (name : string) (l : list Item),
    free m →
    items (store m) !! name = None →
    name ∉ Name <$> l →
    ∃ m', adds l m = Some (tt, m') ∧
          GetItem name m' = Some ((Some (errors_New "item not found"), None), m').
Proof.
  intros m name l Hm Habs Hl.
  destruct (adds_free l m Hm) as (m' & Hrun & Hfree & _ & Hsame).
  exists m'. split; [exact Hrun|].
  apply GetItem_absent; [exact Hfree|].
  rewrite (Hsame name Hl). exact Habs.
Qed.

Lemma GetItem_absent_NotFound_witness :
  ∃ m', adds [apple; banana] boot = Some (tt, m') ∧
        GetItem "Orange" m' = Some ((Some (errors_New "item not found"), None), m').
Proof.
  apply (GetItem_absent_NotFound boot "Orange" [apple; banana]).
  - reflexivity.
  - reflexivity.
  - intros H. apply elem_of_cons in H as [H|H]; [discriminate|].
    apply elem_of_cons in H as [H|H]; [discriminate|].
    apply elem_of_nil in H. exact H.
Defined.

(** C7.  [AddItem item] followed at once by [GetItem (Name item)]
    returns a nil error and a pointer to an [Item] equal to [item]. *)
Theorem AddItem_then_GetItem :
  ∀ (m : Mem) (item : Item),
    free m →
    ∃ p m', (AddItem item ;; GetItem (Name item)) m = Some ((None, Some p), m') ∧
            heap m' !! p = Some item ∧
            (AddItem item ;; GetItem_value (Name item)) m
            = Some ((None, Some item), m').
Proof.
  intros m item Hm.
  set (m1 := {| store := {| items := <[Name item := item]> (items (store m));
                            mu := sync.zeroMutex |};
                heap := heap m |}).
  assert (Hget : GetItem (Name item) m1
                 = Some ((None, Some (fresh (dom (heap m1)))),
                         {| store := store m1;
                            heap := <[fresh (dom (heap m1)) := item]> (heap m1) |})).
  { apply GetItem_present; [reflexivity|]. simpl. apply lookup_insert_eq. }
  eexists _, _. split; [|split].
  - unfold bind at 1. rewrite (AddItem_free item m Hm). fold m1. exact Hget.
  - simpl. apply lookup_insert_eq.
  - unfold bind at 1. rewrite (AddItem_free item m Hm). fold m1.
    unfold GetItem_value, bind at 1. rewrite Hget.
    unfold bind, get, ret, deref. simpl. rewrite lookup_insert_eq. reflexivity.
Qed.

Lemma AddItem_then_GetItem_witness :
  ∃ p m', (AddItem apple ;; GetItem (Name apple)) boot = Some ((None, Some p), m') ∧
          heap m' !! p = Some apple ∧
          (AddItem apple ;; GetItem_value (Name apple)) boot
          = Some ((None, Some apple), m').
Proof. apply (AddItem_then_GetItem boot apple). reflexivity. Defined.

(** C9.  Of the two results of [GetItem] exactly one is nil.  On an
    absent name the error is set and the pointer is nil.  On a present
    name the error is nil and the pointer is the address of a new
    variable holding a copy of the stored [Item]. *)
Theorem GetItem_error_xor_pointer :
  ∀ (m : Mem) (name : string),
    free m →
    ∃ e p m', GetItem name m = Some ((e, p), m') ∧
              (e = None ↔ p ≠ None) ∧
              store m' = store m ∧
              match items (store m) !! name with
              | None => e ≠ None ∧ p = None
              | Some item =>
                  e = None ∧
                  ∃ l, p = Some l ∧ heap m !! l = None ∧ heap m' !! l = Some item
              end.
Proof.
  intros m name Hm. destruct (items (store m) !! name) as [item|] eqn:Hlook.
  - eexists _, _, _. split; [apply (GetItem_present name item m Hm Hlook)|].
    split; [split; [discriminate | reflexivity]|].
    split; [reflexivity|]. split; [reflexivity|].
    eexists. split; [reflexivity|]. split; [apply fresh_cell|].
    simpl. apply lookup_insert_eq.
  - eexists _, _, _. split; [apply (GetItem_absent name m Hm Hlook)|].
    split; [split; [discriminate | intros H; contradiction H; reflexivity]|].
    split; [reflexivity|]. split; [discriminate | reflexivity].
Qed.

Lemma GetItem_error_xor_pointer_witness :
  ∃ e p m', GetItem "Apple" stocked = Some ((e, p), m') ∧
            (e = None ↔ p ≠ None) ∧
            store m' = store stocked ∧
            match items (store stocked) !! "Apple" with
            | None => e ≠ None ∧ p = None
            | Some item =>
                e = None ∧
                ∃ l, p = Some l ∧ heap stocked !! l = None ∧ heap m' !! l = Some item
            end.
Proof. apply (GetItem_error_xor_pointer stocked "Apple"). reflexivity. Defined.

End ItemStoreClaims.

(** ** The product service: methods *)

Module ProductFacts.
Import Go ProductAPI GoIntFacts.

Lemma CreateProduct_free (p : Product) (m : Proc) :
  free m →
  CreateProduct p m
  = Some (tt,
          {| service :=
               {| products := <[nextID (service m) := set_ID (nextID (service m)) p]>
                                (products (service m));
                  mu := sync.zeroRWMutex;
                  nextID := GoInt.incr (nextID (service m)) |};
             stdout := stdout m ++ [created_line (nextID (service m)) (Name p)];
             arrays := arrays m |}).
Proof.
  destruct m as [[ps [wr rd] n] out h]. unfold free. simpl. intros [= -> ->].
  reflexivity.
Qed.

(** A held mutex makes [CreateProduct] wait. *)
Lemma CreateProduct_waits (p : Product) (m : Proc) :
  mu (service m) ≠ sync.zeroRWMutex → CreateProduct p m = None.
Proof.
  destruct m as [[ps [wr rd] n] out h]. simpl. intros Hheld.
  unfold CreateProduct, bind, ps_mu_Lock, try, sync.RWLock. simpl.
  destruct wr; [reflexivity|]. destruct rd; [|reflexivity].
  contradiction Hheld. reflexivity.
Qed.

(** A run of [CreateProduct]s that stays below the largest [int]: the
    memory it ends in, entry by entry. *)
Lemma creates_from (l : list Product) (m : Proc) :
  free m →
  GoInt.min_int ≤ nextID (service m) →
  nextID (service m) + Z.of_nat (length l) ≤ GoInt.max_int →
  ∃ m', creates l m = Some (tt, m') ∧ free m' ∧ arrays m' = arrays m ∧
        nextID (service m') = nextID (service m) + Z.of_nat (length l) ∧
        ∀ k, products (service m') !! k
             = if decide (nextID (service m) ≤ k
                          < nextID (service m) + Z.of_nat (length l))
               then set_ID k <$> l !! Z.to_nat (k - nextID (service m))
               else products (service m) !! k.
Proof.
  revert m. induction l as [|p l IH]; intros m Hm Hlo Hhi.
  - exists m. simpl. repeat split; auto; [lia|].
    intros k. case_decide; [lia | reflexivity].
  - simpl length in *.
    pose proof (CreateProduct_free p m Hm) as Hp.
    set (m1 := {| service := _ |}) in Hp.
    assert (Hn1 : nextID (service m1) = nextID (service m) + 1).
    { simpl. apply incr_below_max. lia. }
    destruct (IH m1) as (m' & Hrun & Hfree & Harr & Hnext & Hprod).
    { reflexivity. }
    { lia. }
    { lia. }
    exists m'. split; [|split; [|split; [|split]]].
    + simpl. unfold bind at 1. rewrite Hp. exact Hrun.
    + exact Hfree.
    + rewrite Harr. reflexivity.
    + lia.
    + intros k. rewrite Hprod, Hn1. repeat case_decide; try lia.
      * replace (Z.to_nat (k - nextID (service m)))
          with (S (Z.to_nat (k - (nextID (service m) + 1)))) by lia.
        reflexivity.
      * assert (k = nextID (service m)) as -> by lia.
        simpl. rewrite lookup_insert_eq, Z.sub_diag. reflexivity.
      * simpl. apply lookup_insert_ne. lia.
Qed.

(** The same from a new service. *)
Lemma creates_boot (l : list Product) :
  Z.of_nat (length l) < GoInt.max_int →
  ∃ m', creates l boot = Some (tt, m') ∧ free m' ∧ arrays m' = ∅ ∧
        nextID (service m') = 1 + Z.of_nat (length l) ∧
        ∀ k, products (service m') !! k
             = if decide (1 ≤ k ≤ Z.of_nat (length l))
               then set_ID k <$> l !! Z.to_nat (k - 1)
               else None.
Proof.
  intros Hlen.
  destruct (creates_from l boot) as (m' & Hrun & Hfree & Harr & Hnext & Hprod).
  { reflexivity. }
  { vm_compute. discriminate. }
  { simpl. lia. }
  exists m'. simpl in *. repeat split; auto.
  intros k. rewrite Hprod. repeat case_decide; try lia; reflexivity.
Qed.

Lemma collect_appends (s : slice) (visit : list (Z * Product)) (old : list Product)
      (m : Proc) :
  arrays m !! s = Some old →
  collect s visit m
  = Some (tt, with_arrays (<[s := old ++ (snd <$> visit)]> (arrays m)) m).
Proof.
  revert old m. induction visit as [|kv visit IH]; intros old m Hs.
  - simpl. rewrite app_nil_r, insert_id by exact Hs. destruct m; reflexivity.
  - simpl. unfold bind at 1, append, modify.
    rewrite (IH (old ++ [snd kv])).
    + destruct m as [ps out h]. unfold with_arrays. simpl in *.
      rewrite insert_alter_eq, <- app_assoc. reflexivity.
    + simpl. rewrite lookup_alter_eq, Hs. reflexivity.
Qed.

(** [GetProducts] through the shared pointer returns as long as no
    writer holds the mutex at the moment the receiver is copied.  The
    result is a new array holding the visited values; the service is
    untouched. *)
Lemma call_GetProducts_returns (visit : list (Z * Product)) (m : Proc) :
  sync.writer (mu (service m)) = false →
  call_GetProducts visit m
  = Some (fresh (dom (arrays m)),
          with_arrays (<[fresh (dom (arrays m)) := snd <$> visit]> (arrays m)) m).
Proof.
  intros Hw. unfold call_GetProducts, bind at 1, get, GetProducts, sync.RLock.
  rewrite Hw. simpl. unfold bind at 1, make.
  unfold bind at 1.
  rewrite (collect_appends _ visit []).
  - simpl. rewrite insert_insert_eq. destruct m; reflexivity.
  - simpl. apply lookup_insert_eq.
Qed.

Lemma GetProducts_value_returns (visit : list (Z * Product)) (m : Proc) :
  sync.writer (mu (service m)) = false →
  GetProducts_value visit m
  = Some (snd <$> visit,
          with_arrays (<[fresh (dom (arrays m)) := snd <$> visit]> (arrays m)) m).
Proof.
  intros Hw. unfold GetProducts_value, bind at 1.
  rewrite (call_GetProducts_returns visit m Hw).
  unfold bind, get, ret, elems. simpl. rewrite lookup_insert_eq. reflexivity.
Qed.

End ProductFacts.

(** ** The product service: goroutines *)

Module GoroutineFacts.
Import Go ProductAPI Goroutines.

Lemma holders_cons (g : goroutine) (pool : list goroutine) :
  holders (g :: pool) = (weight (in_Lock_section g) + holders pool)%nat.
Proof.
  unfold holders. rewrite filter_cons.
  destruct (in_Lock_section g); case_decide; simpl; congruence.
Qed.

Lemma holders_insert (pool : list goroutine) (i : nat) (g g' : goroutine) :
  pool !! i = Some g →
  (holders (<[i := g']> pool) + weight (in_Lock_section g)
   = holders pool + weight (in_Lock_section g'))%nat.
Proof.
  revert i. induction pool as [|g0 pool IH]; intros [|i] Hi; try discriminate.
  - injection Hi as ->. simpl. rewrite !holders_cons. lia.
  - simpl in *. rewrite !holders_cons. specialize (IH i Hi). lia.
Qed.

Lemma holders_spawn (calls : list call) : holders (spawn <$> calls) = 0%nat.
Proof.
  induction calls as [|c calls IH]; [reflexivity|].
  rewrite fmap_cons, holders_cons, IH. destruct c; reflexivity.
Qed.

Lemma holders_two (pool : list goroutine) (i j : nat) (gi gj : goroutine) :
  i ≠ j → pool !! i = Some gi → pool !! j = Some gj →
  in_Lock_section gi = true → in_Lock_section gj = true →
  (2 ≤ holders pool)%nat.
Proof.
  intros Hij Hi Hj Hgi Hgj.
  pose proof (holders_insert pool i gi (Listing l_done sync.zeroRWMutex 0 None) Hi) as H1.
  assert (Hj' : <[i := Listing l_done sync.zeroRWMutex 0 None]> pool !! j = Some gj).
  { rewrite list_lookup_insert_ne by exact Hij. exact Hj. }
  pose proof (holders_insert _ j gj (Listing l_done sync.zeroRWMutex 0 None) Hj') as H2.
  rewrite Hgi in H1. rewrite Hgj in H2. simpl in *. lia.
Qed.

(** A statement of [GetProducts] leaves the shared service as it is: it
    never touches the mutex of the shared struct. *)
Lemma Listing_leaves_service (pc : list_pc) (l : sync.RWMutex) (n : Z)
      (s : option slice) (m : Proc) (g' : goroutine) (m' : Proc) :
  exec (Listing pc l n s) m = Some (g', m') →
  service m' = service m ∧ stdout m' = stdout m ∧ in_Lock_section g' = false.
Proof.
  destruct pc; simpl; intros H.
  - injection H as <- <-. auto.
  - destruct (sync.RLock l); [|discriminate]. injection H as <- <-. auto.
  - injection H as <- <-. auto.
  - destruct s as [s|]; [|discriminate]. unfold advance in H.
    destruct (collect s (some_order m) m) as [[[] m1]|] eqn:Hc; [|discriminate].
    injection H as <- <-.
    assert (Hgen : ∀ visit m0 m1, collect s visit m0 = Some (tt, m1) →
                                  service m1 = service m0 ∧ stdout m1 = stdout m0).
    { clear. induction visit as [|kv visit IH]; intros m0 m1 H.
      - injection H as <-. auto.
      - simpl in H. unfold bind at 1, append, modify in H.
        apply IH in H. simpl in H. exact H. }
    destruct (Hgen _ _ _ Hc). auto.
  - destruct (sync.RUnlock l); [|discriminate]. injection H as <- <-. auto.
  - discriminate.
Qed.

Lemma step_accounted (i : nat) (σ σ' : state) :
  accounted σ → step i σ = Some σ' → accounted σ'.
Proof.
  unfold accounted, step. intros [Hrd Hh] Hstep.
  destruct (pool σ !! i) as [g|] eqn:Hi; [|discriminate]. simpl in Hstep.
  destruct (exec g (mem σ)) as [[g' m']|] eqn:He; [|discriminate].
  injection Hstep as <-. simpl.
  pose proof (holders_insert (pool σ) i g g' Hi) as Hins.
  destruct g as [pc p | pc l n s].
  - destruct (mem σ) as [[ps [wr rd] nx] out h] eqn:Hm. simpl in *. subst rd.
    destruct pc; simpl in He; try discriminate;
      unfold advance, ps_mu_Lock, ps_mu_Unlock, try, sync.RWLock, sync.RWUnlock in He;
      simpl in He.
    + destruct wr; [discriminate|]. injection He as <- <-. simpl in *. lia.
    + injection He as <- <-. simpl in *. split; [reflexivity | lia].
    + injection He as <- <-. simpl in *. split; [reflexivity | lia].
    + injection He as <- <-. simpl in *. split; [reflexivity | lia].
    + injection He as <- <-. simpl in *. split; [reflexivity | lia].
    + destruct wr; [|discriminate]. injection He as <- <-. simpl in *. lia.
  - destruct (Listing_leaves_service _ _ _ _ _ _ _ He) as (Hsv & _ & Hg').
    rewrite Hsv, Hg' in *. simpl in Hins. split; [exact Hrd | lia].
Qed.

Lemma run_accounted (sched : list nat) (σ σ' : state) :
  accounted σ → run sched σ = Some σ' → accounted σ'.
Proof.
  revert σ. induction sched as [|i sched IH]; intros σ Hσ Hrun.
  - injection Hrun as <-. exact Hσ.
  - simpl in Hrun. destruct (step i σ) as [σ1|] eqn:Hstep; [|discriminate].
    exact (IH σ1 (step_accounted i σ σ1 Hσ Hstep) Hrun).
Qed.

Lemma start_accounted (m : Proc) (calls : list call) :
  free m → accounted (start m calls).
Proof.
  unfold free, accounted. simpl. intros ->. rewrite holders_spawn. auto.
Qed.

(** Two goroutines are never both between [Lock] and [Unlock] of
    [CreateProduct]. *)
Lemma CreateProduct_exclusive (m : Proc) (calls : list call) (sched : list nat)
      (σ : state) (i j : nat) (gi gj : goroutine) :
  free m → run sched (start m calls) = Some σ →
  i ≠ j → pool σ !! i = Some gi → pool σ !! j = Some gj →
  in_Lock_section gi = true → in_Lock_section gj = false.
Proof.
  intros Hm Hrun Hij Hi Hj Hgi.
  destruct (run_accounted sched _ σ (start_accounted m calls Hm) Hrun) as [_ Hh].
  destruct (in_Lock_section gj) eqn:Hgj; [|reflexivity].
  pose proof (holders_two (pool σ) i j gi gj Hij Hi Hj Hgi Hgj) as H2.
  rewrite Hh in H2. destruct (sync.writer _); simpl in H2; lia.
Qed.

(** A goroutine that runs [CreateProduct] with no other goroutine
    moving does what the method does. *)
Lemma CreateProduct_alone (p : Product) (m : Proc) :
  free m →
  run [0; 0; 0; 0; 0; 0]%nat (start m [go_CreateProduct p])
  = (CreateProduct p m
     ≫= λ r, Some {| mem := snd r;
                      pool := [Creating c_done (set_ID (nextID (service m)) p)] |}).
Proof.
  destruct m as [[ps [wr rd] n] out h]. unfold free. simpl. intros [= -> ->].
  reflexivity.
Qed.

Lemma step_head (g g' : goroutine) (m m' : Proc) (rest : list goroutine) :
  exec g m = Some (g', m') →
  step 0 {| mem := m; pool := g :: rest |} = Some {| mem := m'; pool := g' :: rest |}.
Proof. intros H. unfold step. simpl. rewrite H. reflexivity. Qed.

(** So does a goroutine that runs [GetProducts] with no other goroutine
    moving. *)
Lemma GetProducts_alone (m : Proc) :
  sync.writer (mu (service m)) = false →
  run [0; 0; 0; 0; 0]%nat (start m [go_GetProducts])
  = (ProductAPI.call_GetProducts (some_order m) m
     ≫= λ r, Some {| mem := snd r;
                      pool := [Listing l_done (mu (service m)) (nextID (service m))
                                       (Some (fst r))] |}).
Proof.
  intros Hw. rewrite (ProductFacts.call_GetProducts_returns _ m Hw).
  destruct m as [[ps [wr rd] n] out h]. simpl in Hw. subst wr.
  set (m := {| service := _ |}).
  unfold start. simpl fmap. simpl run.
  repeat (erewrite step_head by reflexivity; simpl).
  erewrite step_head; cycle 1.
  { simpl. unfold advance.
    rewrite (ProductFacts.collect_appends _ _ []) by apply lookup_insert_eq.
    reflexivity. }
  simpl. repeat (erewrite step_head by reflexivity; simpl).
  unfold with_arrays. simpl. rewrite insert_insert_eq. reflexivity.
Qed.

End GoroutineFacts.

Module ProductRuns.
Import Go ProductAPI ProductFacts.

(** After a run of [CreateProduct]s from a new service the keys are
    [1 .. n], each record carries its key, and the counter is [n + 1]. *)
Lemma creates_boot_keys (l : list Product) :
  Z.of_nat (length l) < GoInt.max_int →
  ∃ m, creates l boot = Some (tt, m) ∧ free m ∧
       nextID (service m) = 1 + Z.of_nat (length l) ∧
       (∀ k, is_Some (products (service m) !! k) ↔ 1 ≤ k ≤ Z.of_nat (length l)) ∧
       (∀ k p, products (service m) !! k = Some p → ID p = k) ∧
       (∀ (k : nat) p, l !! k = Some p →
                       products (service m) !! (1 + Z.of_nat k)
                       = Some (set_ID (1 + Z.of_nat k) p)).
Proof.
  intros Hlen.
  destruct (creates_boot l Hlen) as (m & Hrun & Hfree & _ & Hnext & Hprod).
  exists m. split; [exact Hrun|]. split; [exact Hfree|]. split; [exact Hnext|].
  split; [|split].
  - intros k. rewrite Hprod. split.
    + intros [p Hp]. case_decide; [lia | discriminate].
    + intros Hk. case_decide; [|lia].
      destruct (lookup_lt_is_Some_2 l (Z.to_nat (k - 1))) as [p Hp]; [lia|].
      rewrite Hp. eexists. reflexivity.
  - intros k p. rewrite Hprod. case_decide; [|discriminate].
    destruct (l !! Z.to_nat (k - 1)); [|discriminate].
    intros [= <-]. reflexivity.
  - intros k p Hp. rewrite Hprod.
    pose proof (lookup_lt_Some _ _ _ Hp) as Hlt.
    case_decide; [|lia].
    replace (Z.to_nat (1 + Z.of_nat k - 1)) with k by lia.
    rewrite Hp. reflexivity.
Qed.

(** Listing a map whose keys are [1 .. n] and whose records carry their
    key yields the identities [1 .. n], each once, in some order. *)
Lemma listing_identities (m : gmap Z Product) (n : Z) (visit : list (Z * Product)) :
  (∀ k, is_Some (m !! k) ↔ 1 ≤ k ≤ n) →
  (∀ k p, m !! k = Some p → ID p = k) →
  range_of m visit →
  ID <$> (snd <$> visit) ≡ₚ seqZ 1 n.
Proof.
  unfold range_of. intros Hkeys Hid Hvisit. rewrite Hvisit.
  assert (Heq : ID <$> (snd <$> map_to_list m) = fst <$> map_to_list m).
  { rewrite <- list_fmap_compose. apply list_eq_Forall2, Forall2_fmap, Forall_Forall2_diag.
    apply Forall_forall. intros [k p] Hin. simpl.
    apply elem_of_map_to_list in Hin. exact (Hid k p Hin). }
  rewrite Heq. apply NoDup_Permutation.
  - apply NoDup_fst_map_to_list.
  - apply NoDup_seqZ.
  - intros k. rewrite elem_of_seqZ, list_elem_of_fmap. split.
    + intros ([k' p] & -> & Hin). apply elem_of_map_to_list in Hin.
      assert (Hsome : is_Some (m !! k')) by (eexists; exact Hin).
      apply Hkeys in Hsome. simpl. lia.
    + intros Hk. destruct (proj2 (Hkeys k)) as [p Hp]; [lia|].
      exists (k, p). split; [reflexivity|].
      apply elem_of_map_to_list. exact Hp.
Qed.

End ProductRuns.

Module ProductClaims.
Import Go ProductAPI ProductFacts ProductRuns Goroutines GoroutineFacts
       ProductExamples.

(** C1, as the specification states it, fails: it has [CreateProduct]
    return the identity it assigned.  The method has no result.  Its two
    calls in a new service assign 1 and 2 and hand the caller the same
    empty result, so nothing read off the result tells 1 from 2. *)
Lemma CreateProduct_returns_no_identity :
  ¬ ∃ identity_of : unit → Z,
      (∀ r m', CreateProduct apple boot = Some (r, m') → identity_of r = 1) ∧
      (∀ r m', (CreateProduct apple ;; CreateProduct banana) boot = Some (r, m') →
               identity_of r = 2).
Proof.
  intros (identity_of & H1 & H2).
  specialize (H1 tt _ eq_refl). specialize (H2 tt _ eq_refl).
  rewrite H1 in H2. discriminate.
Qed.

(** C1, amended.  A call of [CreateProduct] that finds the mutex free
    gives the record the current value of [nextID] as its [ID],
    whatever [ID] the caller put in; stores it under that key;
    increments [nextID] ([int] arithmetic); prints the identity; leaves
    the mutex free; and returns nothing.  A goroutine executing the
    method statement by statement has the same effect, and no two
    goroutines are between its [Lock] and [Unlock] at once. *)
Theorem CreateProduct_assigns_nextID :
  ∀ (p : Product) (m : Proc),
    free m →
    CreateProduct p m
    = Some (tt,
            {| service :=
                 {| products := <[nextID (service m) := set_ID (nextID (service m)) p]>
                                  (products (service m));
                    mu := sync.zeroRWMutex;
                    nextID := GoInt.incr (nextID (service m)) |};
               stdout := stdout m ++ [created_line (nextID (service m)) (Name p)];
               arrays := arrays m |})
    ∧ (∀ id, CreateProduct (set_ID id p) m = CreateProduct p m)
    ∧ run [0; 0; 0; 0; 0; 0]%nat (start m [go_CreateProduct p])
      = (CreateProduct p m
         ≫= λ r, Some {| mem := snd r;
                          pool := [Creating c_done (set_ID (nextID (service m)) p)] |})
    ∧ (∀ calls sched σ i j gi gj,
         run sched (start m calls) = Some σ →
         i ≠ j → pool σ !! i = Some gi → pool σ !! j = Some gj →
         in_Lock_section gi = true → in_Lock_section gj = false).
Proof.
  intros p m Hm. split; [|split; [|split]].
  - apply CreateProduct_free, Hm.
  - intros id. rewrite !CreateProduct_free by exact Hm. reflexivity.
  - apply CreateProduct_alone, Hm.
  - intros calls sched σ i j gi gj Hrun.
    exact (CreateProduct_exclusive m calls sched σ i j gi gj Hm Hrun).
Qed.

Lemma CreateProduct_assigns_nextID_witness :
  CreateProduct banana boot
  = Some (tt,
          {| service :=
               {| products := <[nextID (service boot) := set_ID (nextID (service boot)) banana]>
                                (products (service boot));
                  mu := sync.zeroRWMutex;
                  nextID := GoInt.incr (nextID (service boot)) |};
             stdout := stdout boot ++ [created_line (nextID (service boot)) (Name banana)];
             arrays := arrays boot |})
  ∧ (∀ id, CreateProduct (set_ID id banana) boot = CreateProduct banana boot)
  ∧ run [0; 0; 0; 0; 0; 0]%nat (start boot [go_CreateProduct banana])
    = (CreateProduct banana boot
       ≫= λ r, Some {| mem := snd r;
                        pool := [Creating c_done (set_ID (nextID (service boot)) banana)] |})
  ∧ (∀ calls sched σ i j gi gj,
       run sched (start boot calls) = Some σ →
       i ≠ j → pool σ !! i = Some gi → pool σ !! j = Some gj →
       in_Lock_section gi = true → in_Lock_section gj = false).
Proof. apply (CreateProduct_assigns_nextID banana boot). reflexivity. Defined.

(** C2.  From a new service, [n] calls of [CreateProduct] (fewer than
    the largest [int]) all return; the call that follows [k] completed
    calls finds [nextID = 1 + k] and its record is stored, and stays
    stored, under the identity [1 + k]; afterwards [GetProducts] returns
    [n] records whose identities are [1 .. n], each once. *)
Theorem creates_assign_1_to_n :
  ∀ (l : list Product),
    Z.of_nat (length l) < GoInt.max_int →
    ∃ m, creates l boot = Some (tt, m) ∧
         (∀ (k : nat) (p : Product),
            l !! k = Some p →
            (∃ mk, creates (take k l) boot = Some (tt, mk) ∧
                   free mk ∧ nextID (service mk) = 1 + Z.of_nat k) ∧
            products (service m) !! (1 + Z.of_nat k)
            = Some (set_ID (1 + Z.of_nat k) p)) ∧
         (∀ visit, range_of (products (service m)) visit →
                   ∃ out m', GetProducts_value visit m = Some (out, m') ∧
                             length out = length l ∧
                             ID <$> out ≡ₚ seqZ 1 (Z.of_nat (length l))).
Proof.
  intros l Hlen.
  destruct (creates_boot_keys l Hlen) as (m & Hrun & Hfree & Hnext & Hkeys & Hid & Hat).
  exists m. split; [exact Hrun|]. split.
  - intros k p Hp. split; [|exact (Hat k p Hp)].
    pose proof (lookup_lt_Some _ _ _ Hp) as Hlt.
    destruct (creates_boot_keys (take k l)) as (mk & Hrunk & Hfreek & Hnextk & _).
    { rewrite length_take. lia. }
    exists mk. split; [exact Hrunk|]. split; [exact Hfreek|].
    rewrite Hnextk, length_take. lia.
  - intros visit Hvisit.
    pose proof (listing_identities _ _ visit Hkeys Hid Hvisit) as Hperm.
    eexists _, _. split.
    + apply GetProducts_value_returns. rewrite Hfree. reflexivity.
    + split; [|exact Hperm].
      apply Permutation_length in Hperm.
      rewrite !length_fmap in Hperm. rewrite length_fmap, Hperm, length_seqZ. lia.
Qed.

Lemma creates_assign_1_to_n_witness :
  ∃ m, creates [apple; banana] boot = Some (tt, m) ∧
       (∀ (k : nat) (p : Product),
          [apple; banana] !! k = Some p →
          (∃ mk, creates (take k [apple; banana]) boot = Some (tt, mk) ∧
                 free mk ∧ nextID (service mk) = 1 + Z.of_nat k) ∧
          products (service m) !! (1 + Z.of_nat k)
          = Some (set_ID (1 + Z.of_nat k) p)) ∧
       (∀ visit, range_of (products (service m)) visit →
                 ∃ out m', GetProducts_value visit m = Some (out, m') ∧
                           length out = length [apple; banana] ∧
                           ID <$> out ≡ₚ seqZ 1 (Z.of_nat (length [apple; banana]))).
Proof. apply (creates_assign_1_to_n [apple; banana]). reflexivity. Defined.

(** C10.  In the state a new service reaches by [n] calls of
    [CreateProduct] (fewer than the largest [int]) the keys of
    [products] are exactly [1 .. nextID - 1], every record carries the
    key it is stored under, and the key the next call will use is
    vacant. *)
Theorem creates_keep_keys_dense :
  ∀ (l : list Product),
    Z.of_nat (length l) < GoInt.max_int →
    ∃ m, creates l boot = Some (tt, m) ∧
         (∀ k, is_Some (products (service m) !! k) ↔ 1 ≤ k ≤ nextID (service m) - 1) ∧
         dom (products (service m))
         = list_to_set (seqZ 1 (nextID (service m) - 1)) ∧
         (∀ k p, products (service m) !! k = Some p → ID p = k) ∧
         products (service m) !! nextID (service m) = None.
Proof.
  intros l Hlen.
  destruct (creates_boot_keys l Hlen) as (m & Hrun & Hfree & Hnext & Hkeys & Hid & _).
  assert (Hkeys' : ∀ k, is_Some (products (service m) !! k)
                        ↔ 1 ≤ k ≤ nextID (service m) - 1).
  { intros k. rewrite Hkeys, Hnext. lia. }
  exists m. split; [exact Hrun|]. split; [exact Hkeys'|]. split; [|split].
  - apply set_eq. intros k.
    rewrite elem_of_dom, Hkeys', elem_of_list_to_set, elem_of_seqZ. lia.
  - exact Hid.
  - apply eq_None_not_Some. rewrite Hkeys'. lia.
Qed.

Lemma creates_keep_keys_dense_witness :
  ∃ m, creates [apple; banana] boot = Some (tt, m) ∧
       (∀ k, is_Some (products (service m) !! k) ↔ 1 ≤ k ≤ nextID (service m) - 1) ∧
       dom (products (service m))
       = list_to_set (seqZ 1 (nextID (service m) - 1)) ∧
       (∀ k p, products (service m) !! k = Some p → ID p = k) ∧
       products (service m) !! nextID (service m) = None.
Proof. apply (creates_keep_keys_dense [apple; banana]). reflexivity. Defined.

End ProductClaims.

Module ConcurrencyClaims.
Import Go ProductAPI Goroutines GoroutineFacts ProductExamples.

(** C3 asks that every operation holds the mutex of the store over its
    critical section.  [GetProducts] has a value receiver: what it
    locks is its own copy of the mutex.  With one goroutine in
    [CreateProduct] and one in [GetProducts] on a new service, the
    schedule below lets the second copy the receiver, then the first
    lock, set the ID and store the record; the second then locks its
    copy and ranges over the map -- while the first still holds the
    mutex of the service for writing and has not yet incremented
    [nextID].  No statement of [GetProducts] ever changes the shared
    mutex; and a receiver copied while a writer holds the mutex can
    never be read-locked. *)
Theorem GetProducts_locks_a_copy :
  (∃ σ, run [1; 0; 0; 0; 1; 1; 1]%nat
            (start boot [go_CreateProduct apple; go_GetProducts]) = Some σ ∧
        pool σ !! 0%nat = Some (Creating c_incr (set_ID 1 apple)) ∧
        pool σ !! 1%nat
        = Some (Listing l_RUnlock {| sync.writer := false; sync.readers := 1 |} 1
                        (Some 1%positive)) ∧
        mu (service (mem σ)) = {| sync.writer := true; sync.readers := 0 |} ∧
        nextID (service (mem σ)) = 1 ∧
        elems (mem σ) 1%positive = [set_ID 1 apple] ∧
        ¬ serialised σ)
  ∧ (∀ pc l n s m g' m',
       exec (Listing pc l n s) m = Some (g', m') → mu (service m') = mu (service m))
  ∧ (∀ rd n s m,
       exec (Listing l_RLock {| sync.writer := true; sync.readers := rd |} n s) m = None)
  ∧ run [0; 1; 1]%nat (start boot [go_CreateProduct apple; go_GetProducts]) = None.
Proof.
  split; [|split; [|split]].
  - eexists. split; [vm_compute; reflexivity|]. simpl.
    split; [reflexivity|]. split; [reflexivity|]. split; [reflexivity|].
    split; [reflexivity|]. split; [reflexivity|].
    intros Hser.
    destruct (Hser 0%nat 1%nat _ _ ltac:(discriminate) eq_refl eq_refl eq_refl)
      as [_ Hread].
    discriminate Hread.
  - intros pc l n s m g' m' He.
    destruct (Listing_leaves_service pc l n s m g' m' He) as (-> & _). reflexivity.
  - reflexivity.
  - reflexivity.
Qed.

End ConcurrencyClaims.

Module CopyFacts.
Import Go.

(** With no other caller about, what is handed out is a copy.
    [GetItem] on a present name returns the address of a new variable
    holding the stored [Item]; writing through that pointer changes no
    later [GetItem], and a later [AddItem] does not change the variable.
    [GetProducts] returns a new array holding the stored records, in the
    order the [range] visits them; writing an element of it leaves the
    service as it was, so that a later [GetProducts] ranges over the
    same map and returns its records in a new array of its own; and a
    later [CreateProduct] does not change the array. *)
Lemma results_are_copies :
  ∀ (m : ItemStore.Mem) (name : string) (item : ItemStore.Item)
    (q : ProductAPI.Proc) (visit : list (Z * ProductAPI.Product)),
    ItemStore.free m →
    ItemStore.items (ItemStore.store m) !! name = Some item →
    ProductAPI.free q →
    ProductAPI.range_of (ProductAPI.products (ProductAPI.service q)) visit →
    (∃ p m1,
        ItemStore.GetItem name m = Some ((None, Some p), m1) ∧
        ItemStore.heap m !! p = None ∧
        ItemStore.heap m1 !! p = Some item ∧
        ItemStore.store m1 = ItemStore.store m ∧
        (∀ item' name',
            fst <$> (ItemStore.write_through p item' ;; ItemStore.GetItem_value name') m1
            = fst <$> ItemStore.GetItem_value name' m1) ∧
        (∀ item', ∃ m2, ItemStore.AddItem item' m1 = Some (tt, m2) ∧
                        ItemStore.heap m2 !! p = Some item))
    ∧
    (∃ s q1,
        ProductAPI.call_GetProducts visit q = Some (s, q1) ∧
        ProductAPI.arrays q !! s = None ∧
        ProductAPI.elems q1 s = snd <$> visit ∧
        ProductAPI.elems q1 s
        ≡ₚ snd <$> map_to_list (ProductAPI.products (ProductAPI.service q)) ∧
        ProductAPI.service q1 = ProductAPI.service q ∧
        (∀ i p', ∃ q2,
            ProductAPI.write_elem s i p' q1 = Some (tt, q2) ∧
            ProductAPI.service q2 = ProductAPI.service q ∧
            ∀ visit',
              ProductAPI.range_of (ProductAPI.products (ProductAPI.service q2)) visit' →
              ∃ s' q3,
                ProductAPI.call_GetProducts visit' q2 = Some (s', q3) ∧
                s' ≠ s ∧
                ProductAPI.elems q3 s' = snd <$> visit' ∧
                ProductAPI.elems q3 s'
                ≡ₚ snd <$> map_to_list (ProductAPI.products (ProductAPI.service q))) ∧
        (∀ p', ∃ q2, ProductAPI.CreateProduct p' q1 = Some (tt, q2) ∧
                     ProductAPI.elems q2 s = snd <$> visit)).
Proof.
  intros m name item q visit Hm Hitem Hq Hvisit. split.
  - exists (fresh (dom (ItemStore.heap m))). eexists. split.
    { apply (ItemStoreFacts.GetItem_present name item m Hm Hitem). }
    simpl. split; [apply ItemStoreFacts.fresh_cell|].
    split; [apply lookup_insert_eq|]. split; [reflexivity|]. split.
    + intros item' name'.
      assert (Hview : ∀ m0, ItemStore.free m0 →
                fst <$> ItemStore.GetItem_value name' m0
                = Some (match ItemStore.items (ItemStore.store m0) !! name' with
                        | Some it => (None, Some it)
                        | None => (Some (ItemStore.errors_New "item not found"), None)
                        end)).
      { intros m0 Hm0. unfold ItemStore.GetItem_value, bind at 1.
        destruct (ItemStore.items (ItemStore.store m0) !! name') as [it|] eqn:Hl.
        - rewrite (ItemStoreFacts.GetItem_present name' it m0 Hm0 Hl).
          unfold bind, get, ret, ItemStore.deref. simpl.
          rewrite lookup_insert_eq. reflexivity.
        - rewrite (ItemStoreFacts.GetItem_absent name' m0 Hm0 Hl). reflexivity. }
      unfold bind at 1, ItemStore.write_through, modify.
      rewrite !Hview by exact Hm. reflexivity.
    + intros item'. eexists. split.
      { apply ItemStoreFacts.AddItem_free. exact Hm. }
      simpl. apply lookup_insert_eq.
  - pose proof Hq as Hw. unfold ProductAPI.free in Hw.
    assert (Hnw : sync.writer (ProductAPI.mu (ProductAPI.service q)) = false)
      by (rewrite Hw; reflexivity).
    exists (fresh (dom (ProductAPI.arrays q))). eexists. split.
    { apply ProductFacts.call_GetProducts_returns. exact Hnw. }
    assert (Helems : ∀ h, ProductAPI.elems
              (ProductAPI.with_arrays
                 (<[fresh (dom (ProductAPI.arrays q)) := snd <$> visit]> h) q)
              (fresh (dom (ProductAPI.arrays q))) = snd <$> visit).
    { intros h. unfold ProductAPI.elems. simpl. rewrite lookup_insert_eq. reflexivity. }
    split; [apply not_elem_of_dom, is_fresh|].
    split; [apply Helems|].
    split; [rewrite Helems, Hvisit; reflexivity|].
    split; [reflexivity|]. split.
    + intros i p'. eexists. split; [reflexivity|]. split; [reflexivity|].
      intros visit' Hvisit'. simpl in Hvisit'.
      eexists. eexists. split.
      { apply ProductFacts.call_GetProducts_returns. exact Hnw. }
      split.
      { simpl. intros Heq.
        pose proof (is_fresh (dom (alter (λ l, <[i := p']> l)
                                         (fresh (dom (ProductAPI.arrays q)))
                                         (<[fresh (dom (ProductAPI.arrays q)) := snd <$> visit]>
                                            (ProductAPI.arrays q))))) as Hfresh.
        apply Hfresh. rewrite Heq. rewrite dom_alter. set_solver. }
      unfold ProductAPI.elems. simpl. rewrite lookup_insert_eq. simpl.
      split; [reflexivity|]. rewrite Hvisit'. reflexivity.
    + intros p'. eexists. split.
      { apply ProductFacts.CreateProduct_free. exact Hq. }
      unfold ProductAPI.elems. simpl. rewrite lookup_insert_eq. reflexivity.
Qed.

Lemma results_are_copies_witness :
  let m := ItemStoreExamples.stocked in
  let q := {| ProductAPI.service :=
                {| ProductAPI.products :=
                     {[ 1 := ProductAPI.set_ID 1 ProductExamples.apple ]};
                   ProductAPI.mu := sync.zeroRWMutex;
                   ProductAPI.nextID := 2 |};
              ProductAPI.stdout := [];
              ProductAPI.arrays := ∅ |} in
  let visit := [(1, ProductAPI.set_ID 1 ProductExamples.apple)] in
  (∃ p m1,
      ItemStore.GetItem "Apple" m = Some ((None, Some p), m1) ∧
      ItemStore.heap m !! p = None ∧
      ItemStore.heap m1 !! p = Some ItemStoreExamples.apple ∧
      ItemStore.store m1 = ItemStore.store m ∧
      (∀ item' name',
          fst <$> (ItemStore.write_through p item' ;; ItemStore.GetItem_value name') m1
          = fst <$> ItemStore.GetItem_value name' m1) ∧
      (∀ item', ∃ m2, ItemStore.AddItem item' m1 = Some (tt, m2) ∧
                      ItemStore.heap m2 !! p = Some ItemStoreExamples.apple))
  ∧
  (∃ s q1,
      ProductAPI.call_GetProducts visit q = Some (s, q1) ∧
      ProductAPI.arrays q !! s = None ∧
      ProductAPI.elems q1 s = snd <$> visit ∧
      ProductAPI.elems q1 s
      ≡ₚ snd <$> map_to_list (ProductAPI.products (ProductAPI.service q)) ∧
      ProductAPI.service q1 = ProductAPI.service q ∧
      (∀ i p', ∃ q2,
          ProductAPI.write_elem s i p' q1 = Some (tt, q2) ∧
          ProductAPI.service q2 = ProductAPI.service q ∧
          ∀ visit',
            ProductAPI.range_of (ProductAPI.products (ProductAPI.service q2)) visit' →
            ∃ s' q3,
              ProductAPI.call_GetProducts visit' q2 = Some (s', q3) ∧
              s' ≠ s ∧
              ProductAPI.elems q3 s' = snd <$> visit' ∧
              ProductAPI.elems q3 s'
              ≡ₚ snd <$> map_to_list (ProductAPI.products (ProductAPI.service q))) ∧
      (∀ p', ∃ q2, ProductAPI.CreateProduct p' q1 = Some (tt, q2) ∧
                   ProductAPI.elems q2 s = snd <$> visit)).
Proof.
  intros m q visit.
  apply (results_are_copies m "Apple" ItemStoreExamples.apple q visit).
  - reflexivity.
  - reflexivity.
  - reflexivity.
  - unfold ProductAPI.range_of, q, visit. simpl.
    rewrite map_to_list_singleton. reflexivity.
Defined.

End CopyFacts.

Module CopyClaims.
Import Go ProductAPI Goroutines.

(** C8 asks that [GetProducts] returns a copy of the records as they
    were at the moment the lock was acquired.  The copy is a new array,
    but [GetProducts] has a value receiver and read-locks its own copy
    of the mutex, which keeps no writer out.  With one goroutine in
    [CreateProduct] and one in [GetProducts] on a new service, let the
    second copy the receiver and take its read lock while the map is
    empty, then the first run from [Lock] to [Unlock], then the second
    go on: the slice it returns holds the record that was stored after
    it had acquired its lock. *)
Theorem GetProducts_returns_a_later_record :
  ∀ p : Product,
    ∃ σ1 σ2 s,
      run [1; 1]%nat (start boot [go_CreateProduct p; go_GetProducts]) = Some σ1 ∧
      pool σ1 !! 1%nat
      = Some (Listing l_make {| sync.writer := false; sync.readers := 1 |} 1 None) ∧
      in_RLock_section (Listing l_make {| sync.writer := false; sync.readers := 1 |} 1 None)
      = true ∧
      products (service (mem σ1)) = ∅ ∧
      run [0; 0; 0; 0; 0; 0; 1; 1; 1]%nat σ1 = Some σ2 ∧
      pool σ2 !! 0%nat = Some (Creating c_done (set_ID 1 p)) ∧
      pool σ2 !! 1%nat
      = Some (Listing l_done {| sync.writer := false; sync.readers := 0 |} 1 (Some s)) ∧
      elems (mem σ2) s = [set_ID 1 p].
Proof.
  intros p. eexists. eexists. eexists.
  split; [reflexivity|]. split; [reflexivity|]. split; [reflexivity|].
  split; [reflexivity|]. split; [vm_compute; reflexivity|].
  split; [reflexivity|]. split; [reflexivity|]. reflexivity.
Qed.

End CopyClaims.

(** ** The product service: handlers *)

Module HandlerFacts.
Import Go ProductAPI Handlers.

Lemma method_mismatch (method allowed : string) :
  method ≠ allowed → negb (String.eqb method allowed) = true.
Proof. intros H. apply negb_true_iff, String.eqb_neq, H. Qed.

(** What the create handler does with a POST whose body is unread. *)
Lemma createProductHandler_POST (s : Conn) (c : json.content) :
  http.Method (r s) = http.MethodPost →
  http.Body (r s) = http.Unread c →
  createProductHandler s
  = match snd (json.decode c zero) with
    | Some e =>
        Some (tt, {| proc := proc s;
                     w := http.Error (http.ErrorLine e) http.StatusBadRequest (w s);
                     r := {| http.Method := http.MethodPost;
                             http.Body := http.Drained |} |})
    | None =>
        match CreateProduct (fst (json.decode c zero)) (proc s) with
        | Some (_, m') =>
            Some (tt, {| proc := m';
                         w := http.Write (http.Bytes "Product created successfully")
                                (http.WriteHeader http.StatusCreated (w s));
                         r := {| http.Method := http.MethodPost;
                                 http.Body := http.Drained |} |})
        | None => None
        end
    end.
Proof.
  destruct s as [m w0 [method body]]. simpl. intros -> ->.
  unfold createProductHandler, bind at 1, get. simpl.
  unfold bind at 1, Decode. simpl.
  destruct (json.decode c zero) as [p [e|]]; simpl.
  - reflexivity.
  - unfold bind at 1, on_proc. simpl.
    destruct (CreateProduct p m) as [[[] m']|]; reflexivity.
Qed.

End HandlerFacts.

Module HandlerClaims.
Import Go ProductAPI Handlers HandlerFacts.

(** C4, as the specification states it, fails.  A POST whose body is
    the JSON object with a name and no price is not a bad request: the
    handler answers 201 and the service has a new record, with price 0. *)
Lemma createProductHandler_accepts_missing_fields :
  ∃ s', createProductHandler
          (arrive boot "POST" (json.Text (json.Obj [("name", json.Str "Apple")])))
        = Some (tt, s') ∧
        http.status (w s') = Some http.StatusCreated ∧
        http.status (w s') ≠ Some http.StatusBadRequest ∧
        products (service (proc s')) !! 1
        = Some {| ID := 1; Name := "Apple"; Price := 0 |} ∧
        service (proc s') ≠ service boot.
Proof.
  eexists. split; [reflexivity|]. simpl.
  split; [reflexivity|]. split; [discriminate|]. split; [reflexivity|].
  intros H. apply (f_equal nextID) in H. discriminate H.
Qed.

(** C4, amended.  On a POST the handler decodes the body.  When decoding
    fails -- no JSON value, malformed JSON, a value that is neither an
    object nor null, a member of the wrong JSON type -- it answers 400
    with the decoder's message and the process memory is what it was.
    When decoding succeeds, absent fields staying zero, it calls
    [CreateProduct] and answers 201. *)
Theorem createProductHandler_BadRequest_on_decode_error :
  ∀ (s : Conn) (c : json.content),
    http.Method (r s) = http.MethodPost →
    http.Body (r s) = http.Unread c →
    free (proc s) →
    match snd (json.decode c zero) with
    | Some e =>
        ∃ s', createProductHandler s = Some (tt, s') ∧
              proc s' = proc s ∧
              w s' = http.Error (http.ErrorLine e) http.StatusBadRequest (w s) ∧
              (http.status (w s) = None →
               http.status (w s') = Some http.StatusBadRequest)
    | None =>
        ∃ s' m', createProductHandler s = Some (tt, s') ∧
                 CreateProduct (fst (json.decode c zero)) (proc s) = Some (tt, m') ∧
                 proc s' = m' ∧
                 products (service m') !! nextID (service (proc s))
                 = Some (set_ID (nextID (service (proc s))) (fst (json.decode c zero))) ∧
                 (http.status (w s) = None →
                  http.status (w s') = Some http.StatusCreated)
    end.
Proof.
  intros s c Hpost Hbody Hfree.
  rewrite (createProductHandler_POST s c Hpost Hbody).
  destruct (json.decode c zero) as [p [e|]]; simpl.
  - eexists. split; [reflexivity|]. simpl. split; [reflexivity|].
    split; [reflexivity|]. intros Hst. unfold http.Error, http.Write, http.WriteHeader.
    simpl. rewrite Hst. reflexivity.
  - rewrite (ProductFacts.CreateProduct_free p (proc s) Hfree).
    eexists _, _. split; [reflexivity|]. split; [reflexivity|]. simpl.
    split; [reflexivity|]. split; [apply lookup_insert_eq|].
    intros Hst. unfold http.Write, http.WriteHeader. simpl. rewrite Hst. reflexivity.
Qed.

Lemma createProductHandler_BadRequest_on_decode_error_witness :
  ∃ s', createProductHandler
          (arrive boot "POST" (json.Text (json.Obj [("price", json.Str "one")])))
        = Some (tt, s') ∧
        proc s' = boot ∧
        w s' = http.Error (http.ErrorLine (json.UnmarshalTypeError "string" "price"))
                          http.StatusBadRequest http.blank ∧
        (http.status http.blank = None →
         http.status (w s') = Some http.StatusBadRequest).
Proof.
  apply (createProductHandler_BadRequest_on_decode_error
           (arrive boot "POST" (json.Text (json.Obj [("price", json.Str "one")])))
           (json.Text (json.Obj [("price", json.Str "one")]))).
  - reflexivity.
  - reflexivity.
  - reflexivity.
Defined.

(** C5.  A request whose method is not POST, put to the create handler,
    or not GET, put to the list handler, gets 405 "Method not allowed"
    and nothing else happens: the body is left unread, the service,
    standard output and the arrays are what they were. *)
Theorem handlers_refuse_other_methods :
  ∀ (s : Conn) (visit : list (Z * Product)),
    (http.Method (r s) ≠ http.MethodPost →
     createProductHandler s
     = Some (tt, {| proc := proc s;
                    w := http.Error (http.Line "Method not allowed")
                                    http.StatusMethodNotAllowed (w s);
                    r := r s |}))
    ∧ (http.Method (r s) ≠ http.MethodGet →
       getProductsHandler visit s
       = Some (tt, {| proc := proc s;
                      w := http.Error (http.Line "Method not allowed")
                                      http.StatusMethodNotAllowed (w s);
                      r := r s |}))
    ∧ (http.status (w s) = None →
       http.status (http.Error (http.Line "Method not allowed")
                               http.StatusMethodNotAllowed (w s))
       = Some http.StatusMethodNotAllowed).
Proof.
  intros s visit. split; [|split].
  - intros Hm. unfold createProductHandler, bind at 1, get.
    rewrite (method_mismatch _ _ Hm). reflexivity.
  - intros Hm. unfold getProductsHandler, bind at 1, get.
    rewrite (method_mismatch _ _ Hm). reflexivity.
  - intros Hst. unfold http.Error, http.Write, http.WriteHeader. simpl.
    rewrite Hst. reflexivity.
Qed.

Lemma handlers_refuse_other_methods_witness :
  let s := arrive boot "PUT" (json.Text (json.Obj [("name", json.Str "Apple")])) in
  createProductHandler s
  = Some (tt, {| proc := boot;
                 w := http.Error (http.Line "Method not allowed")
                                 http.StatusMethodNotAllowed http.blank;
                 r := r s |})
  ∧ getProductsHandler [] s
    = Some (tt, {| proc := boot;
                   w := http.Error (http.Line "Method not allowed")
                                   http.StatusMethodNotAllowed http.blank;
                   r := r s |})
  ∧ http.status (http.Error (http.Line "Method not allowed")
                            http.StatusMethodNotAllowed http.blank)
    = Some http.StatusMethodNotAllowed.
Proof.
  intros s.
  destruct (handlers_refuse_other_methods s []) as (Hc & Hg & Hst).
  split; [|split].
  - apply Hc. discriminate.
  - apply Hg. discriminate.
  - apply Hst. reflexivity.
Defined.

End HandlerClaims.

(** * Further properties *)

(** ** The item store: how the operations compose *)

Module ItemStoreMore.
Import Go ItemStore ItemStoreFacts ItemStoreExamples.

(** What [GetItem_value] shows depends on the items alone. *)
Lemma GetItem_value_free (name : string) (m : Mem) :
  free m →
  fst <$> GetItem_value name m
  = Some (match items (store m) !! name with
          | Some item => (None, Some item)
          | None => (Some (errors_New "item not found"), None)
          end).
Proof.
  intros Hm. unfold GetItem_value, bind at 1.
  destruct (items (store m) !! name) as [item|] eqn:Hl.
  - rewrite (GetItem_present name item m Hm Hl).
    unfold bind, get, ret, deref. simpl. rewrite lookup_insert_eq. reflexivity.
  - rewrite (GetItem_absent name m Hm Hl). reflexivity.
Qed.

(** Two [AddItem]s under one name: the second replaces the first, and
    the store is the one the second call alone would have left. *)
Theorem AddItem_last_wins :
  ∀ (m : Mem) (a b : Item),
    free m → Name a = Name b →
    (AddItem a ;; AddItem b) m = AddItem b m ∧
    fst <$> (AddItem a ;; AddItem b ;; GetItem_value (Name a)) m
    = Some (None, Some b).
Proof.
  intros m a b Hm Hab.
  assert (Hrun : (AddItem a ;; AddItem b) m = AddItem b m).
  { unfold bind. rewrite (AddItem_free a m Hm).
    rewrite !AddItem_free by (exact Hm || reflexivity). simpl.
    rewrite Hab, insert_insert_eq. reflexivity. }
  split; [exact Hrun|].
  unfold bind at 1. rewrite (AddItem_free a m Hm).
  unfold bind at 1. rewrite AddItem_free by reflexivity.
  rewrite GetItem_value_free by reflexivity. simpl.
  rewrite Hab, lookup_insert_eq. reflexivity.
Qed.

Lemma AddItem_last_wins_witness :
  (AddItem apple ;; AddItem {| Name := "Apple"; Price := 3 |}) boot
  = AddItem {| Name := "Apple"; Price := 3 |} boot ∧
  fst <$> (AddItem apple ;; AddItem {| Name := "Apple"; Price := 3 |} ;;
           GetItem_value (Name apple)) boot
  = Some (None, Some {| Name := "Apple"; Price := 3 |}).
Proof.
  apply (AddItem_last_wins boot apple {| Name := "Apple"; Price := 3 |});
    reflexivity.
Defined.

(** [AddItem] touches one name: what [GetItem] shows for any other name
    is what it showed before, and [AddItem]s under different names can
    be made in either order. *)
Theorem AddItem_other_names :
  ∀ (m : Mem) (a b : Item) (name : string),
    free m → name ≠ Name a → Name a ≠ Name b →
    fst <$> (AddItem a ;; GetItem_value name) m = fst <$> GetItem_value name m ∧
    (AddItem a ;; AddItem b) m = (AddItem b ;; AddItem a) m.
Proof.
  intros m a b name Hm Hname Hab. split.
  - unfold bind at 1. rewrite (AddItem_free a m Hm).
    rewrite !GetItem_value_free by (exact Hm || reflexivity). simpl.
    rewrite lookup_insert_ne by congruence. reflexivity.
  - unfold bind. rewrite (AddItem_free a m Hm), (AddItem_free b m Hm).
    rewrite !AddItem_free by reflexivity. simpl.
    rewrite insert_insert_ne by congruence. reflexivity.
Qed.

Lemma AddItem_other_names_witness :
  fst <$> (AddItem apple ;; GetItem_value "Banana") stocked
  = fst <$> GetItem_value "Banana" stocked ∧
  (AddItem apple ;; AddItem banana) stocked = (AddItem banana ;; AddItem apple) stocked.
Proof.
  apply (AddItem_other_names stocked apple banana "Banana").
  - reflexivity.
  - discriminate.
  - discriminate.
Defined.

(** The mutex is not re-entrant: called while it is held, neither
    method returns. *)
Theorem held_mutex_blocks :
  ∀ (m : Mem) (item : Item) (name : string),
    mu (store m) = {| sync.locked := true |} →
    AddItem item m = None ∧ GetItem name m = None.
Proof.
  intros [[its [b]] h] item name. simpl. intros [= ->]. split; reflexivity.
Qed.

Lemma held_mutex_blocks_witness :
  AddItem apple {| store := {| items := ∅; mu := {| sync.locked := true |} |};
                   heap := ∅ |} = None ∧
  GetItem "Apple" {| store := {| items := ∅; mu := {| sync.locked := true |} |};
                     heap := ∅ |} = None.
Proof.
  apply (held_mutex_blocks
           {| store := {| items := ∅; mu := {| sync.locked := true |} |}; heap := ∅ |}
           apple "Apple").
  reflexivity.
Defined.

(** Every [GetItem] hands out a variable of its own: two lookups of one
    name return different addresses, each holding the stored [Item], so
    a write through one is not seen through the other. *)
Theorem GetItem_pointers_distinct :
  ∀ (m : Mem) (name : string) (item item' : Item),
    free m → items (store m) !! name = Some item →
    ∃ p1 p2 m2,
      (let* r1 := GetItem name in let* r2 := GetItem name in ret (r1, r2)) m
      = Some (((None, Some p1), (None, Some p2)), m2) ∧
      p1 ≠ p2 ∧
      heap m2 !! p1 = Some item ∧ heap m2 !! p2 = Some item ∧
      (write_through p1 item' m2 ≫= λ x, heap (snd x) !! p2) = Some item.
Proof.
  intros m name item item' Hm Hl.
  set (p1 := fresh (dom (heap m))).
  set (m1 := {| store := store m; heap := <[p1 := item]> (heap m) |}).
  set (p2 := fresh (dom (heap m1))).
  assert (Hne : p1 ≠ p2).
  { intros Heq. pose proof (fresh_cell (heap m1)) as Hf. fold p2 in Hf.
    rewrite <- Heq in Hf. simpl in Hf. rewrite lookup_insert_eq in Hf. discriminate. }
  exists p1, p2. eexists. split; [|split; [exact Hne|]].
  - unfold bind at 1. rewrite (GetItem_present name item m Hm Hl). fold p1 m1.
    unfold bind at 1. rewrite (GetItem_present name item m1 Hm Hl). reflexivity.
  - simpl. fold p2. split; [|split].
    + rewrite lookup_insert_ne by (intros Heq; apply Hne; symmetry; exact Heq).
      apply lookup_insert_eq.
    + apply lookup_insert_eq.
    + rewrite lookup_insert_ne by exact Hne. apply lookup_insert_eq.
Qed.

Lemma GetItem_pointers_distinct_witness :
  ∃ p1 p2 m2,
    (let* r1 := GetItem "Apple" in let* r2 := GetItem "Apple" in ret (r1, r2)) stocked
    = Some (((None, Some p1), (None, Some p2)), m2) ∧
    p1 ≠ p2 ∧
    heap m2 !! p1 = Some apple ∧ heap m2 !! p2 = Some apple ∧
    (write_through p1 banana m2 ≫= λ x, heap (snd x) !! p2) = Some apple.
Proof.
  apply (GetItem_pointers_distinct stocked "Apple" apple banana); reflexivity.
Defined.

End ItemStoreMore.

(** ** The product service: more on the methods *)

Module ProductMore.
Import Go ProductAPI ProductFacts GoIntFacts ProductExamples.

Lemma creates_stdout_from (l : list Product) (m : Proc) :
  free m →
  GoInt.min_int ≤ nextID (service m) →
  nextID (service m) + Z.of_nat (length l) ≤ GoInt.max_int →
  ∃ m', creates l m = Some (tt, m') ∧
        stdout m'
        = stdout m
          ++ imap (λ k p, created_line (nextID (service m) + Z.of_nat k) (Name p)) l.
Proof.
  revert m. induction l as [|p l IH]; intros m Hm Hlo Hhi.
  - exists m. simpl. rewrite app_nil_r. auto.
  - simpl length in *.
    pose proof (CreateProduct_free p m Hm) as Hp.
    set (m1 := {| service := _ |}) in Hp.
    assert (Hn1 : nextID (service m1) = nextID (service m) + 1).
    { simpl. apply incr_below_max. lia. }
    destruct (IH m1) as (m' & Hrun & Hout); [reflexivity | lia | lia |].
    exists m'. split.
    + simpl. unfold bind at 1. rewrite Hp. exact Hrun.
    + rewrite Hout, Hn1. simpl. rewrite <- app_assoc. simpl.
      rewrite Z.add_0_r. do 2 f_equal.
      apply imap_ext. intros k q _. simpl. f_equal. lia.
Qed.

(** From a new service, the calls print one line each, in call order,
    and the line of the call that follows [k] calls shows the identity
    [1 + k] and the name it was given. *)
Theorem creates_print_identities :
  ∀ (l : list Product),
    Z.of_nat (length l) < GoInt.max_int →
    ∃ m, creates l boot = Some (tt, m) ∧
         stdout m = imap (λ k p, created_line (1 + Z.of_nat k) (Name p)) l.
Proof.
  intros l Hlen.
  destruct (creates_stdout_from l boot) as (m & Hrun & Hout).
  { reflexivity. }
  { vm_compute. discriminate. }
  { simpl. lia. }
  exists m. split; [exact Hrun|]. exact Hout.
Qed.

Lemma creates_print_identities_witness :
  ∃ m, creates [apple; banana] boot = Some (tt, m) ∧
       stdout m = imap (λ k p, created_line (1 + Z.of_nat k) (Name p)) [apple; banana].
Proof. apply (creates_print_identities [apple; banana]). reflexivity. Defined.

(** [CreateProduct] writes one key.  Every record stored under another
    key is left as it is; and when the key is vacant the map grows by
    exactly one record. *)
Theorem CreateProduct_keeps_other_records :
  ∀ (p : Product) (m : Proc),
    free m →
    ∃ m', CreateProduct p m = Some (tt, m') ∧
          (∀ k, k ≠ nextID (service m) →
                products (service m') !! k = products (service m) !! k) ∧
          (products (service m) !! nextID (service m) = None →
           size (products (service m')) = S (size (products (service m)))).
Proof.
  intros p m Hm. eexists. split; [apply CreateProduct_free, Hm|]. simpl. split.
  - intros k Hk. apply lookup_insert_ne. congruence.
  - intros Hvac. apply map_size_insert_None, Hvac.
Qed.

Lemma CreateProduct_keeps_other_records_witness :
  ∃ m', CreateProduct banana boot = Some (tt, m') ∧
        (∀ k, k ≠ nextID (service boot) →
              products (service m') !! k = products (service boot) !! k) ∧
        (products (service boot) !! nextID (service boot) = None →
         size (products (service m')) = S (size (products (service boot)))).
Proof. apply (CreateProduct_keeps_other_records banana boot). reflexivity. Defined.

(** At the largest [int] the counter wraps: the call stores its record
    under [max_int] and leaves [nextID] at the smallest [int], so the
    call after it assigns a negative identity. *)
Theorem CreateProduct_wraps_at_max_int :
  ∀ (p q : Product) (m : Proc),
    free m → nextID (service m) = GoInt.max_int →
    ∃ m1 m2, CreateProduct p m = Some (tt, m1) ∧
             products (service m1) !! GoInt.max_int = Some (set_ID GoInt.max_int p) ∧
             nextID (service m1) = GoInt.min_int ∧
             CreateProduct q m1 = Some (tt, m2) ∧
             products (service m2) !! GoInt.min_int = Some (set_ID GoInt.min_int q).
Proof.
  intros p q m Hm Hmax. eexists _, _.
  split; [apply CreateProduct_free, Hm|]. simpl. rewrite Hmax.
  split; [apply lookup_insert_eq|]. split; [reflexivity|].
  split; [apply CreateProduct_free; reflexivity|]. simpl.
  rewrite incr_at_max. apply lookup_insert_eq.
Qed.

Lemma CreateProduct_wraps_at_max_int_witness :
  ∃ m1 m2,
    CreateProduct apple
      {| service := {| products := ∅; mu := sync.zeroRWMutex; nextID := GoInt.max_int |};
         stdout := []; arrays := ∅ |} = Some (tt, m1) ∧
    products (service m1) !! GoInt.max_int = Some (set_ID GoInt.max_int apple) ∧
    nextID (service m1) = GoInt.min_int ∧
    CreateProduct banana m1 = Some (tt, m2) ∧
    products (service m2) !! GoInt.min_int = Some (set_ID GoInt.min_int banana).
Proof.
  apply (CreateProduct_wraps_at_max_int apple banana
           {| service := {| products := ∅; mu := sync.zeroRWMutex;
                            nextID := GoInt.max_int |};
              stdout := []; arrays := ∅ |}); reflexivity.
Defined.

End ProductMore.

(** ** The product service: more on the handlers *)

Module HandlerMore.
Import Go ProductAPI Handlers HandlerFacts.

Lemma int_fits (z : Z) :
  GoInt.min_int ≤ z ≤ GoInt.max_int →
  (GoInt.min_int <=? z) && (z <=? GoInt.max_int) = true.
Proof. intros [Hlo Hhi]. apply andb_true_iff. split; apply Z.leb_le; assumption. Qed.

(** Coercing a string that is valid UTF-8 changes nothing. *)
Lemma coerce_from_valid (s : string) :
  ∀ skip, utf8.valid_from skip s = true → json.coerce_from skip s = s.
Proof.
  induction s as [|c rest IH]; intros skip Hv; [reflexivity|].
  simpl in *. destruct skip as [|k].
  - destruct (utf8.rune_width c rest) as [n|]; [|discriminate].
    rewrite (IH _ Hv). reflexivity.
  - rewrite (IH _ Hv). reflexivity.
Qed.

Lemma coerce_valid (s : string) : utf8.ValidString s = true → json.coerce s = s.
Proof. apply coerce_from_valid. Qed.

(** What decoding makes of an encoded product: the product with its
    name coerced to valid UTF-8. *)
Lemma decode_of_Product_coerced (p q : Product) :
  GoInt.min_int ≤ ID p ≤ GoInt.max_int →
  GoInt.min_int ≤ Price p ≤ GoInt.max_int →
  json.decode (json.Text (json.of_Product p)) q
  = ({| ID := ID p; Name := json.coerce (Name p); Price := Price p |}, None).
Proof.
  destruct p as [id name price]. intros Hid Hprice. simpl in *.
  unfold json.member, json.names, json.to_int, json.to_string. simpl.
  rewrite (int_fits id Hid). simpl. rewrite (int_fits price Hprice). reflexivity.
Qed.

(** What the list handler writes for a product whose name is valid
    UTF-8 is read back by the create handler's decoder as the same
    product, whatever the variable it decodes into held before.  (A name
    that is not valid UTF-8 comes back with its stray bytes replaced by
    U+FFFD: the encoder coerces strings.) *)
Theorem decode_of_Product :
  ∀ (p q : Product),
    GoInt.min_int ≤ ID p ≤ GoInt.max_int →
    GoInt.min_int ≤ Price p ≤ GoInt.max_int →
    utf8.ValidString (Name p) = true →
    json.decode (json.Text (json.of_Product p)) q = (p, None).
Proof.
  intros p q Hid Hprice Hname.
  rewrite (decode_of_Product_coerced p q Hid Hprice).
  rewrite (coerce_valid _ Hname). destruct p; reflexivity.
Qed.

Lemma decode_of_Product_witness :
  let p := {| ID := 1; Name := "Café crème"; Price := 3 |} in
  utf8.ValidString (Name p) = true ∧
  json.decode (json.Text (json.of_Product p)) ProductExamples.banana = (p, None).
Proof.
  intros p. split; [reflexivity|].
  apply (decode_of_Product p ProductExamples.banana).
  - vm_compute. split; discriminate.
  - vm_compute. split; discriminate.
  - reflexivity.
Defined.

(** What the list handler does with a GET. *)
Lemma getProductsHandler_GET_eq (visit : list (Z * Product)) (s : Conn) :
  http.Method (r s) = http.MethodGet →
  sync.writer (mu (service (proc s))) = false →
  getProductsHandler visit s
  = Some (tt,
          {| proc := with_arrays (<[fresh (dom (arrays (proc s))) := snd <$> visit]>
                                    (arrays (proc s))) (proc s);
             w := http.Write (http.Encoded (json.of_Products (snd <$> visit)))
                    (http.Header_Set "Content-Type" "application/json" (w s));
             r := r s |}).
Proof.
  intros Hget Hw. unfold getProductsHandler, bind at 1, get.
  rewrite Hget. simpl. unfold bind at 1, on_proc.
  rewrite (ProductFacts.call_GetProducts_returns visit (proc s) Hw).
  unfold bind, on_w, modify, get, elems. simpl. rewrite lookup_insert_eq. reflexivity.
Qed.

(** On a GET the list handler answers with the stored records, each
    once, encoded as a JSON array and marked [application/json]; the
    status is 200 unless one was already sent.  It leaves the service,
    standard output and the request as they were. *)
Theorem getProductsHandler_lists_records :
  ∀ (s : Conn) (visit : list (Z * Product)),
    http.Method (r s) = http.MethodGet →
    sync.writer (mu (service (proc s))) = false →
    range_of (products (service (proc s))) visit →
    ∃ s' out,
      getProductsHandler visit s = Some (tt, s') ∧
      out ≡ₚ snd <$> map_to_list (products (service (proc s))) ∧
      http.written (w s') = http.written (w s) ++ [http.Encoded (json.of_Products out)] ∧
      http.Header (w s') !! "Content-Type" = Some "application/json" ∧
      (http.status (w s) = None → http.status (w s') = Some http.StatusOK) ∧
      service (proc s') = service (proc s) ∧
      stdout (proc s') = stdout (proc s) ∧
      r s' = r s.
Proof.
  intros s visit Hget Hw Hvisit. eexists _, (snd <$> visit).
  split; [apply (getProductsHandler_GET_eq visit s Hget Hw)|].
  split; [rewrite Hvisit; reflexivity|]. simpl.
  unfold http.WriteHeader, http.Header_Set. simpl.
  destruct (http.status (w s)) as [code|]; simpl.
  - split; [reflexivity|]. split; [apply lookup_insert_eq|].
    split; [discriminate|]. auto.
  - split; [reflexivity|]. split; [apply lookup_insert_eq|]. auto.
Qed.

Lemma getProductsHandler_lists_records_witness :
  let m := {| service := {| products := {[ 1 := set_ID 1 ProductExamples.apple;
                                            2 := set_ID 2 ProductExamples.banana ]};
                            mu := sync.zeroRWMutex;
                            nextID := 3 |};
              stdout := [created_line 1 "Apple"; created_line 2 "Banana"];
              arrays := ∅ |} in
  let visit := [(2, set_ID 2 ProductExamples.banana);
                (1, set_ID 1 ProductExamples.apple)] in
  let s := arrive m "GET" json.Nothing in
  ∃ s' out,
    getProductsHandler visit s = Some (tt, s') ∧
    out ≡ₚ snd <$> map_to_list (products (service (proc s))) ∧
    http.written (w s') = http.written (w s) ++ [http.Encoded (json.of_Products out)] ∧
    http.Header (w s') !! "Content-Type" = Some "application/json" ∧
    (http.status (w s) = None → http.status (w s') = Some http.StatusOK) ∧
    service (proc s') = service (proc s) ∧
    stdout (proc s') = stdout (proc s) ∧
    r s' = r s.
Proof.
  intros m visit s.
  apply (getProductsHandler_lists_records s visit).
  - reflexivity.
  - reflexivity.
  - unfold range_of, visit, s, m. simpl.
    rewrite map_to_list_insert by reflexivity.
    rewrite map_to_list_singleton. apply perm_swap.
Defined.

(** A product posted to a new service comes back from the list handler
    as the one element of the array, with the identity 1, and with its
    name as the encoder writes it: the name itself when it is valid
    UTF-8. *)
Theorem post_then_get :
  ∀ (name : string) (price : Z),
    GoInt.min_int ≤ price ≤ GoInt.max_int →
    ∃ s1,
      createProductHandler
        (arrive boot "POST"
                (json.Text (json.Obj [("name", json.Str name); ("price", json.Int price)])))
      = Some (tt, s1) ∧
      http.status (w s1) = Some http.StatusCreated ∧
      ∀ visit,
        range_of (products (service (proc s1))) visit →
        ∃ s2,
          getProductsHandler visit (arrive (proc s1) "GET" json.Nothing) = Some (tt, s2) ∧
          http.status (w s2) = Some http.StatusOK ∧
          http.written (w s2)
          = [http.Encoded
               (json.Arr [json.Obj [("id", json.Int 1);
                                    ("name", json.Str (json.coerce name));
                                    ("price", json.Int price)]])] ∧
          (utf8.ValidString name = true →
           http.written (w s2)
           = [http.Encoded
                (json.Arr [json.Obj [("id", json.Int 1); ("name", json.Str name);
                                     ("price", json.Int price)]])]).
Proof.
  intros name price Hprice.
  set (c := json.Text (json.Obj [("name", json.Str name); ("price", json.Int price)])).
  assert (Hdec : json.decode c zero = ({| ID := 0; Name := name; Price := price |}, None)).
  { unfold c. simpl. unfold json.member, json.names, json.to_int, json.to_string. simpl.
    rewrite (int_fits price Hprice). reflexivity. }
  pose proof (createProductHandler_POST (arrive boot "POST" c) c eq_refl eq_refl) as Hpost.
  rewrite Hdec in Hpost. simpl in Hpost.
  eexists. split; [exact Hpost|]. simpl. split; [reflexivity|].
  intros visit Hvisit. unfold range_of in Hvisit. simpl in Hvisit.
  rewrite insert_empty, map_to_list_singleton in Hvisit.
  apply Permutation_singleton_r in Hvisit. subst visit.
  eexists. split; [apply getProductsHandler_GET_eq; reflexivity|].
  split; [reflexivity|]. split; [reflexivity|].
  intros Hname. simpl. unfold json.of_Products, json.of_Product. simpl.
  rewrite (coerce_valid _ Hname). reflexivity.
Qed.

Lemma post_then_get_witness :
  ∃ s1,
    createProductHandler
      (arrive boot "POST"
              (json.Text (json.Obj [("name", json.Str "Apple"); ("price", json.Int 1)])))
    = Some (tt, s1) ∧
    http.status (w s1) = Some http.StatusCreated ∧
    ∀ visit,
      range_of (products (service (proc s1))) visit →
      ∃ s2,
        getProductsHandler visit (arrive (proc s1) "GET" json.Nothing) = Some (tt, s2) ∧
        http.status (w s2) = Some http.StatusOK ∧
        http.written (w s2)
        = [http.Encoded
             (json.Arr [json.Obj [("id", json.Int 1);
                                  ("name", json.Str (json.coerce "Apple"));
                                  ("price", json.Int 1)]])] ∧
        (utf8.ValidString "Apple" = true →
         http.written (w s2)
         = [http.Encoded
              (json.Arr [json.Obj [("id", json.Int 1); ("name", json.Str "Apple");
                                   ("price", json.Int 1)]])]).
Proof. apply (post_then_get "Apple" 1). vm_compute. split; discriminate. Defined.

(** While another caller holds the mutex of the service, the create
    handler still answers a body it cannot decode with 400, and only a
    body it can decode makes it wait. *)
Theorem createProductHandler_waits_only_to_create :
  ∀ (s : Conn) (c : json.content),
    http.Method (r s) = http.MethodPost →
    http.Body (r s) = http.Unread c →
    mu (service (proc s)) ≠ sync.zeroRWMutex →
    createProductHandler s
    = match snd (json.decode c zero) with
      | Some e =>
          Some (tt, {| proc := proc s;
                       w := http.Error (http.ErrorLine e) http.StatusBadRequest (w s);
                       r := {| http.Method := http.MethodPost;
                               http.Body := http.Drained |} |})
      | None => None
      end.
Proof.
  intros s c Hpost Hbody Hheld.
  rewrite (createProductHandler_POST s c Hpost Hbody).
  destruct (json.decode c zero) as [p [e|]]; simpl; [reflexivity|].
  rewrite (ProductFacts.CreateProduct_waits p (proc s) Hheld). reflexivity.
Qed.

Lemma createProductHandler_waits_only_to_create_witness :
  let held := {| service := {| products := ∅;
                               mu := {| sync.writer := true; sync.readers := 0 |};
                               nextID := 1 |};
                 stdout := []; arrays := ∅ |} in
  createProductHandler (arrive held "POST" json.Garbage)
  = Some (tt, {| proc := held;
                 w := http.Error (http.ErrorLine json.SyntaxError)
                                 http.StatusBadRequest http.blank;
                 r := {| http.Method := http.MethodPost; http.Body := http.Drained |} |}).
Proof.
  intros held.
  apply (createProductHandler_waits_only_to_create
           (arrive held "POST" json.Garbage) json.Garbage).
  - reflexivity.
  - reflexivity.
  - discriminate.
Defined.

End HandlerMore.

(** ** The product service: identities under interleaving *)

Module IdentityFacts.
Import Go ProductAPI Goroutines GoroutineFacts Identities.

Lemma tally_cons (f : goroutine → bool) (g : goroutine) (pool : list goroutine) :
  tally f (g :: pool) = (weight (f g) + tally f pool)%nat.
Proof.
  unfold tally. rewrite filter_cons.
  destruct (f g); case_decide; simpl; congruence.
Qed.

Lemma tally_insert (f : goroutine → bool) (pool : list goroutine) (i : nat)
      (g g' : goroutine) :
  pool !! i = Some g →
  (tally f (<[i := g']> pool) + weight (f g) = tally f pool + weight (f g'))%nat.
Proof.
  revert i. induction pool as [|g0 pool IH]; intros [|i] Hi; try discriminate.
  - injection Hi as ->. simpl. rewrite !tally_cons. lia.
  - simpl in *. rewrite !tally_cons. specialize (IH i Hi). lia.
Qed.

Lemma tally_le (f : goroutine → bool) (pool : list goroutine) :
  (tally f pool ≤ length pool)%nat.
Proof.
  induction pool as [|g pool IH]; [reflexivity|].
  rewrite tally_cons. simpl. destruct (f g); simpl; lia.
Qed.

Lemma pool_insert_lookup (pool : list goroutine) (i j : nat) (g g' gj : goroutine) :
  pool !! i = Some g →
  <[i := g']> pool !! j = Some gj →
  (j = i ∧ gj = g') ∨ (j ≠ i ∧ pool !! j = Some gj).
Proof.
  intros Hi Hj. destruct (decide (j = i)) as [->|Hne].
  - left. split; [reflexivity|].
    rewrite list_lookup_insert_eq in Hj by (eapply lookup_lt_Some; exact Hi).
    congruence.
  - right. split; [exact Hne|].
    rewrite list_lookup_insert_ne in Hj by congruence. exact Hj.
Qed.

(** While a goroutine is in the write section every other one is
    outside it. *)
Lemma others_outside (σ : state) (i j : nat) (g gj : goroutine) :
  accounted σ → pool σ !! i = Some g → in_Lock_section g = true →
  j ≠ i → pool σ !! j = Some gj → in_Lock_section gj = false.
Proof.
  intros [_ Hh] Hi Hg Hne Hj.
  destruct (in_Lock_section gj) eqn:Hgj; [|reflexivity].
  assert (Hne' : i ≠ j) by congruence.
  pose proof (holders_two (pool σ) i j g gj Hne' Hi Hj Hg Hgj) as H2.
  rewrite Hh in H2. destruct (sync.writer _); simpl in H2; lia.
Qed.

(** What one statement of [CreateProduct] does to the goroutine, the
    map and the counter. *)
Lemma exec_Creating (pc : create_pc) (p : Product) (m : Proc)
      (g' : goroutine) (m' : Proc) :
  exec (Creating pc p) m = Some (g', m') →
  match pc with
  | c_Lock =>
      g' = Creating c_setID p ∧
      products (service m') = products (service m) ∧
      nextID (service m') = nextID (service m)
  | c_setID =>
      g' = Creating c_store (set_ID (nextID (service m)) p) ∧
      products (service m') = products (service m) ∧
      nextID (service m') = nextID (service m)
  | c_store =>
      g' = Creating c_incr p ∧
      products (service m') = <[ID p := p]> (products (service m)) ∧
      nextID (service m') = nextID (service m)
  | c_incr =>
      g' = Creating c_Printf p ∧
      products (service m') = products (service m) ∧
      nextID (service m') = GoInt.incr (nextID (service m))
  | c_Printf =>
      g' = Creating c_Unlock p ∧
      products (service m') = products (service m) ∧
      nextID (service m') = nextID (service m)
  | c_Unlock =>
      g' = Creating c_done p ∧
      products (service m') = products (service m) ∧
      nextID (service m') = nextID (service m)
  | c_done => False
  end.
Proof.
  destruct m as [[ps [wr rd] n] out h].
  destruct pc; simpl; unfold advance, ps_mu_Lock, ps_mu_Unlock, try,
    sync.RWLock, sync.RWUnlock; simpl; intros He.
  - destruct wr; [discriminate|]. destruct rd; [|discriminate].
    injection He as <- <-. auto.
  - injection He as <- <-. auto.
  - injection He as <- <-. auto.
  - injection He as <- <-. auto.
  - injection He as <- <-. auto.
  - destruct wr; [|discriminate]. injection He as <- <-. auto.
  - discriminate.
Qed.

(** A statement that leaves the map, the counter and the record of the
    goroutine alone keeps the order. *)
Lemma quiet_step (σ : state) (i : nat) (g g' : goroutine) (m' : Proc) :
  ordered σ → pool σ !! i = Some g →
  products (service m') = products (service (mem σ)) →
  nextID (service m') = nextID (service (mem σ)) →
  has_incremented g' = has_incremented g →
  (∀ N P, placed N P g → placed N P g') →
  (∀ pc' p', g' = Creating pc' p' →
             ∃ pc, g = Creating pc p' ∧ (has_ID g' = true → has_ID g = true)) →
  (∀ p, g ≠ Creating c_incr p) →
  ordered {| mem := m'; pool := <[i := g']> (pool σ) |}.
Proof.
  intros [Hnext Hkeys Hdense Hpend Hids Hplaced Hdist] Hi HP HN Hinc Hpl Hsame Hnot.
  split; simpl; rewrite ?HP, ?HN.
  - pose proof (tally_insert has_incremented (pool σ) i g g' Hi) as Ht.
    rewrite Hinc in Ht. rewrite Hnext. lia.
  - exact Hkeys.
  - exact Hdense.
  - intros Hsome. destruct (Hpend Hsome) as (i0 & p & Hi0).
    exists i0, p. rewrite list_lookup_insert_ne; [exact Hi0|].
    intros ->. rewrite Hi in Hi0. injection Hi0 as ->. exact (Hnot p eq_refl).
  - exact Hids.
  - intros j gj Hj.
    destruct (pool_insert_lookup _ _ _ _ _ _ Hi Hj) as [[-> ->]|[Hne Hj']].
    + apply Hpl, (Hplaced i g Hi).
    + exact (Hplaced j gj Hj').
  - intros a b pca pa pcb pb Hab Ha Hb HIa HIb.
    destruct (pool_insert_lookup _ _ _ _ _ _ Hi Ha) as [[-> Hga]|[Hnea Ha']];
      destruct (pool_insert_lookup _ _ _ _ _ _ Hi Hb) as [[-> Hgb]|[Hneb Hb']];
      try congruence.
    + destruct (Hsame pca pa (eq_sym Hga)) as (pc & -> & HID).
      rewrite <- Hga in HID.
      exact (Hdist i b pc pa pcb pb Hab Hi Hb' (HID HIa) HIb).
    + destruct (Hsame pcb pb (eq_sym Hgb)) as (pc & -> & HID).
      rewrite <- Hgb in HID.
      exact (Hdist a i pca pa pc pb Hab Ha' Hi HIa (HID HIb)).
    + exact (Hdist a b pca pa pcb pb Hab Ha' Hb' HIa HIb).
Qed.


(** Outside the write section a goroutine with an identity has returned. *)
Lemma outside_placed (N : Z) (P : gmap Z Product) (g : goroutine) :
  in_Lock_section g = false → placed N P g →
  match g with
  | Creating c_done p => 1 ≤ ID p < N ∧ P !! ID p = Some p
  | Creating c_Lock _ | Listing _ _ _ _ => True
  | _ => False
  end.
Proof. destruct g as [[] p|]; simpl; intros Hout Hpl; try discriminate; auto. Qed.

Lemma step_ordered (i : nat) (σ σ' : state) :
  Z.of_nat (length (pool σ)) < GoInt.max_int →
  accounted σ → ordered σ → step i σ = Some σ' → ordered σ'.
Proof.
  intros Hlen Hacc Hord Hstep. unfold step in Hstep.
  destruct (pool σ !! i) as [g|] eqn:Hi; [|discriminate]. simpl in Hstep.
  destruct (exec g (mem σ)) as [[g' m']|] eqn:He; [|discriminate].
  injection Hstep as <-. simpl.
  destruct g as [pc p | pc l n s].
  - pose proof (exec_Creating pc p (mem σ) g' m' He) as Hc.
    destruct pc.
    + (* Lock *)
      destruct Hc as (-> & HP & HN).
      apply (quiet_step σ i _ _ m' Hord Hi HP HN).
      * reflexivity.
      * intros N P H. exact I.
      * intros pc' p' [= <- <-]. eexists. split; [reflexivity|]. discriminate.
      * discriminate.
    + (* newProduct.ID = ps.nextID *)
      destruct Hc as (-> & HP & HN).
      destruct Hord as [Hnext Hkeys Hdense Hpend Hids Hplaced Hdist].
      assert (Hout : ∀ j gj, j ≠ i → pool σ !! j = Some gj → in_Lock_section gj = false).
      { intros j gj Hne Hj. exact (others_outside σ i j _ gj Hacc Hi eq_refl Hne Hj). }
      split; simpl; rewrite ?HP, ?HN.
      * pose proof (tally_insert has_incremented (pool σ) i _
                      (Creating c_store (set_ID (nextID (service (mem σ))) p)) Hi) as Ht.
        simpl in Ht. lia.
      * exact Hkeys.
      * exact Hdense.
      * intros Hsome. destruct (Hpend Hsome) as (i0 & p0 & Hi0).
        exists i0, p0. rewrite list_lookup_insert_ne; [exact Hi0|].
        intros ->. rewrite Hi in Hi0. discriminate.
      * exact Hids.
      * intros j gj Hj.
        destruct (pool_insert_lookup _ _ _ _ _ _ Hi Hj) as [[-> ->]|[Hne Hj']].
        -- reflexivity.
        -- exact (Hplaced j gj Hj').
      * intros a b pca pa pcb pb Hab Ha Hb HIa HIb.
        destruct (pool_insert_lookup _ _ _ _ _ _ Hi Ha) as [[-> Hga]|[Hnea Ha']];
          destruct (pool_insert_lookup _ _ _ _ _ _ Hi Hb) as [[-> Hgb]|[Hneb Hb']];
          try congruence.
        -- injection Hga as -> ->. simpl.
           pose proof (outside_placed _ _ _ (Hout b _ Hneb Hb') (Hplaced b _ Hb')) as Hb2.
           destruct pcb; simpl in *; try contradiction; try discriminate. lia.
        -- injection Hgb as -> ->. simpl.
           pose proof (outside_placed _ _ _ (Hout a _ Hnea Ha') (Hplaced a _ Ha')) as Ha2.
           destruct pca; simpl in *; try contradiction; try discriminate. lia.
        -- exact (Hdist a b pca pa pcb pb Hab Ha' Hb' HIa HIb).
    + (* ps.products[newProduct.ID] = newProduct *)
      destruct Hc as (-> & HP & HN).
      destruct Hord as [Hnext Hkeys Hdense Hpend Hids Hplaced Hdist].
      assert (Hout : ∀ j gj, j ≠ i → pool σ !! j = Some gj → in_Lock_section gj = false).
      { intros j gj Hne Hj. exact (others_outside σ i j _ gj Hacc Hi eq_refl Hne Hj). }
      pose proof (Hplaced i _ Hi) as Hid. simpl in Hid.
      split; simpl; rewrite ?HP, ?HN, ?Hid.
      * pose proof (tally_insert has_incremented (pool σ) i _ (Creating c_incr p) Hi) as Ht.
        simpl in Ht. rewrite Hnext. lia.
      * intros k Hk. destruct (decide (k = nextID (service (mem σ)))) as [->|Hne].
        -- lia.
        -- rewrite lookup_insert_ne in Hk by congruence. exact (Hkeys k Hk).
      * intros k Hk. rewrite lookup_insert_ne by lia. exact (Hdense k Hk).
      * intros _. exists i, p. apply list_lookup_insert_eq.
        eapply lookup_lt_Some. exact Hi.
      * intros k q Hq. destruct (decide (k = nextID (service (mem σ)))) as [->|Hne].
        -- rewrite lookup_insert_eq in Hq. injection Hq as <-. exact Hid.
        -- rewrite lookup_insert_ne in Hq by congruence. exact (Hids k q Hq).
      * intros j gj Hj.
        destruct (pool_insert_lookup _ _ _ _ _ _ Hi Hj) as [[-> ->]|[Hne Hj']].
        -- simpl. split; [exact Hid | apply lookup_insert_eq].
        -- pose proof (outside_placed _ _ _ (Hout j _ Hne Hj') (Hplaced j _ Hj')) as Hj2.
           destruct gj as [[] q|]; simpl in *; try contradiction; auto.
           destruct Hj2 as [Hr Hq]. split; [exact Hr|].
           rewrite lookup_insert_ne by lia. exact Hq.
      * intros a b pca pa pcb pb Hab Ha Hb HIa HIb.
        destruct (pool_insert_lookup _ _ _ _ _ _ Hi Ha) as [[-> Hga]|[Hnea Ha']];
          destruct (pool_insert_lookup _ _ _ _ _ _ Hi Hb) as [[-> Hgb]|[Hneb Hb']];
          try congruence.
        -- injection Hga as -> ->.
           exact (Hdist i b _ _ pcb pb Hab Hi Hb' eq_refl HIb).
        -- injection Hgb as -> ->.
           exact (Hdist a i pca pa _ _ Hab Ha' Hi HIa eq_refl).
        -- exact (Hdist a b pca pa pcb pb Hab Ha' Hb' HIa HIb).
    + (* ps.nextID++ *)
      destruct Hc as (-> & HP & HN).
      destruct Hord as [Hnext Hkeys Hdense Hpend Hids Hplaced Hdist].
      assert (Hout : ∀ j gj, j ≠ i → pool σ !! j = Some gj → in_Lock_section gj = false).
      { intros j gj Hne Hj. exact (others_outside σ i j _ gj Hacc Hi eq_refl Hne Hj). }
      pose proof (Hplaced i _ Hi) as [Hid Hat]. simpl in Hid, Hat.
      pose proof (tally_insert has_incremented (pool σ) i _ (Creating c_Printf p) Hi) as Ht.
      simpl in Ht.
      pose proof (tally_le has_incremented (<[i := Creating c_Printf p]> (pool σ))) as Hle.
      rewrite length_insert in Hle.
      assert (HN' : nextID (service m') = nextID (service (mem σ)) + 1).
      { rewrite HN. apply GoIntFacts.incr_below_max.
        unfold GoInt.min_int, GoInt.int_bits. simpl. lia. }
      split; simpl; rewrite ?HP, ?HN'.
      * rewrite Hnext. lia.
      * intros k Hk. pose proof (Hkeys k Hk). lia.
      * intros k Hk. destruct (decide (k = nextID (service (mem σ)))) as [->|Hne].
        -- rewrite Hat. eexists. reflexivity.
        -- apply Hdense. lia.
      * intros Hsome. pose proof (Hkeys _ Hsome). lia.
      * exact Hids.
      * intros j gj Hj.
        destruct (pool_insert_lookup _ _ _ _ _ _ Hi Hj) as [[-> ->]|[Hne Hj']].
        -- simpl. rewrite Hid. split; [lia | exact Hat].
        -- pose proof (outside_placed _ _ _ (Hout j _ Hne Hj') (Hplaced j _ Hj')) as Hj2.
           destruct gj as [[] q|]; simpl in *; try contradiction; auto.
           destruct Hj2 as [Hr Hq]. split; [lia | exact Hq].
      * intros a b pca pa pcb pb Hab Ha Hb HIa HIb.
        destruct (pool_insert_lookup _ _ _ _ _ _ Hi Ha) as [[-> Hga]|[Hnea Ha']];
          destruct (pool_insert_lookup _ _ _ _ _ _ Hi Hb) as [[-> Hgb]|[Hneb Hb']];
          try congruence.
        -- injection Hga as -> ->.
           exact (Hdist i b _ _ pcb pb Hab Hi Hb' eq_refl HIb).
        -- injection Hgb as -> ->.
           exact (Hdist a i pca pa _ _ Hab Ha' Hi HIa eq_refl).
        -- exact (Hdist a b pca pa pcb pb Hab Ha' Hb' HIa HIb).
    + (* Printf *)
      destruct Hc as (-> & HP & HN).
      apply (quiet_step σ i _ _ m' Hord Hi HP HN).
      * reflexivity.
      * intros N P H. exact H.
      * intros pc' p' [= <- <-]. eexists. split; [reflexivity|]. auto.
      * discriminate.
    + (* Unlock *)
      destruct Hc as (-> & HP & HN).
      apply (quiet_step σ i _ _ m' Hord Hi HP HN).
      * reflexivity.
      * intros N P H. exact H.
      * intros pc' p' [= <- <-]. eexists. split; [reflexivity|]. auto.
      * discriminate.
    + contradiction.
  - destruct (Listing_leaves_service pc l n s (mem σ) g' m' He) as (Hsv & _ & _).
    assert (Hg' : ∃ pc' l' n' s', g' = Listing pc' l' n' s').
    { destruct pc; simpl in He.
      - injection He as <- <-. eauto.
      - destruct (sync.RLock l); [|discriminate]. injection He as <- <-. eauto.
      - unfold advance in He. destruct (make (mem σ)) as [[? ?]|]; [|discriminate].
        injection He as <- <-. eauto.
      - destruct s; [|discriminate]. unfold advance in He.
        destruct (collect _ _ _) as [[? ?]|]; [|discriminate].
        injection He as <- <-. eauto.
      - destruct (sync.RUnlock l); [|discriminate]. injection He as <- <-. eauto.
      - discriminate. }
    destruct Hg' as (pc' & l' & n' & s' & ->).
    apply (quiet_step σ i _ _ m' Hord Hi).
    + rewrite Hsv. reflexivity.
    + rewrite Hsv. reflexivity.
    + reflexivity.
    + intros N P H. exact I.
    + discriminate.
    + discriminate.
Qed.


Lemma step_runs (calls : list call) (i : nat) (σ σ' : state) :
  Forall2 runs calls (pool σ) → step i σ = Some σ' → Forall2 runs calls (pool σ').
Proof.
  intros Hruns Hstep. unfold step in Hstep.
  destruct (pool σ !! i) as [g|] eqn:Hi; [|discriminate]. simpl in Hstep.
  destruct (exec g (mem σ)) as [[g' m']|] eqn:He; [|discriminate].
  injection Hstep as <-. simpl.
  destruct (Forall2_lookup_r _ _ _ _ _ Hruns Hi) as (c & Hc & Hcg).
  rewrite <- (list_insert_id calls i c Hc).
  apply Forall2_insert; [exact Hruns|].
  destruct g as [pc p | pc l n s].
  - pose proof (exec_Creating pc p (mem σ) g' m' He) as Hx.
    destruct c as [p0|]; [|contradiction].
    destruct pc; try contradiction; destruct Hx as (-> & _); exact Hcg.
  - destruct c as [p0|]; [contradiction|].
    destruct pc; simpl in He.
    + injection He as <- <-. exact I.
    + destruct (sync.RLock l); [|discriminate]. injection He as <- <-. exact I.
    + unfold advance in He. destruct (make (mem σ)) as [[? ?]|]; [|discriminate].
      injection He as <- <-. exact I.
    + destruct s; [|discriminate]. unfold advance in He.
      destruct (collect _ _ _) as [[? ?]|]; [|discriminate].
      injection He as <- <-. exact I.
    + destruct (sync.RUnlock l); [|discriminate]. injection He as <- <-. exact I.
    + discriminate.
Qed.

Lemma step_length (i : nat) (σ σ' : state) :
  step i σ = Some σ' → length (pool σ') = length (pool σ).
Proof.
  unfold step. destruct (pool σ !! i); [|discriminate]. simpl.
  destruct (exec _ _); [|discriminate]. intros [= <-]. simpl. apply length_insert.
Qed.

Lemma run_ordered (calls : list call) (sched : list nat) (σ σ' : state) :
  Z.of_nat (length (pool σ)) < GoInt.max_int →
  accounted σ → ordered σ → Forall2 runs calls (pool σ) →
  run sched σ = Some σ' →
  accounted σ' ∧ ordered σ' ∧ Forall2 runs calls (pool σ').
Proof.
  revert σ. induction sched as [|i sched IH]; intros σ Hlen Hacc Hord Hruns Hrun.
  - injection Hrun as <-. auto.
  - simpl in Hrun. destruct (step i σ) as [σ1|] eqn:Hstep; [|discriminate].
    apply (IH σ1).
    + rewrite (step_length i σ σ1 Hstep). exact Hlen.
    + exact (step_accounted i σ σ1 Hacc Hstep).
    + exact (step_ordered i σ σ1 Hlen Hacc Hord Hstep).
    + exact (step_runs calls i σ σ1 Hruns Hstep).
    + exact Hrun.
Qed.

Lemma tally_spawn (f : goroutine → bool) (calls : list call) :
  (∀ c, f (spawn c) = false) → tally f (spawn <$> calls) = 0%nat.
Proof.
  intros Hf. induction calls as [|c calls IH]; [reflexivity|].
  rewrite fmap_cons, tally_cons, IH, Hf. reflexivity.
Qed.

Lemma start_ordered (calls : list call) : ordered (start boot calls).
Proof.
  assert (Hspawn : ∀ i g, (spawn <$> calls) !! i = Some g → ∃ c, g = spawn c).
  { intros i g Hg. rewrite list_lookup_fmap in Hg.
    destruct (calls !! i) as [c|]; [|discriminate]. injection Hg as <-. eauto. }
  split; simpl.
  - rewrite tally_spawn; [reflexivity|]. intros []; reflexivity.
  - intros k [p Hp]. rewrite lookup_empty in Hp. discriminate.
  - intros k Hk. lia.
  - intros [p Hp]. rewrite lookup_empty in Hp. discriminate.
  - intros k p Hp. rewrite lookup_empty in Hp. discriminate.
  - intros i g Hg. destruct (Hspawn i g Hg) as [[] ->]; exact I.
  - intros i j pci pi pcj pj _ Hi _ HIi _.
    destruct (Hspawn i _ Hi) as [[] Heq]; simpl in Heq; try discriminate.
    injection Heq as -> ->. discriminate.
Qed.

Lemma start_runs (calls : list call) : Forall2 runs calls (spawn <$> calls).
Proof.
  induction calls as [|c calls IH]; [constructor|].
  rewrite fmap_cons. constructor; [|exact IH]. destruct c; simpl; auto.
Qed.

(** Once every [CreateProduct] goroutine has returned, those past the
    increment are the [CreateProduct] calls. *)
Lemma tally_returned (calls : list call) (pool : list goroutine) :
  Forall2 runs calls pool →
  (∀ i pc p, pool !! i = Some (Creating pc p) → pc = c_done) →
  tally has_incremented pool = length (filter (λ c, is_create c = true) calls).
Proof.
  intros Hruns. induction Hruns as [|c g calls pool Hcg Hruns IH]; intros Hdone.
  - reflexivity.
  - rewrite tally_cons, filter_cons, IH.
    + destruct c as [p0|], g as [pc p|]; simpl in Hcg; try contradiction.
      * rewrite (Hdone 0%nat pc p eq_refl). reflexivity.
      * reflexivity.
    + intros i pc p Hi. exact (Hdone (S i) pc p Hi).
Qed.

Lemma holders_member (pool : list goroutine) (i : nat) (g : goroutine) :
  pool !! i = Some g → in_Lock_section g = true → (1 ≤ holders pool)%nat.
Proof.
  intros Hi Hg.
  pose proof (holders_insert pool i g (Listing l_done sync.zeroRWMutex 0 None) Hi) as H.
  rewrite Hg in H. simpl in H. lia.
Qed.

Lemma holders_positive (pool : list goroutine) :
  (1 ≤ holders pool)%nat → ∃ i g, pool !! i = Some g ∧ in_Lock_section g = true.
Proof.
  induction pool as [|g pool IH]; intros H.
  - change (holders []) with 0%nat in H. lia.
  - rewrite holders_cons in H. destruct (in_Lock_section g) eqn:Hg.
    + exists 0%nat, g. auto.
    + destruct IH as (i & g0 & Hi & Hg0); [simpl in H; lia|].
      exists (S i), g0. auto.
Qed.

End IdentityFacts.

Module ConcurrentCreates.
Import Go ProductAPI Goroutines GoroutineFacts Identities IdentityFacts ProductExamples.

(** Any number of goroutines call [CreateProduct] and [GetProducts] on
    a new service, interleaved in any way.  Once every [CreateProduct]
    has returned, the counter is one more than the number [n] of those
    calls, the keys of the map are [1 .. n], every call has its record --
    the name and price it was given -- stored under an identity of its
    own, and no two calls have the same identity. *)
Theorem interleaved_creates_assign_1_to_n :
  ∀ (calls : list call) (sched : list nat) (σ : state),
    Z.of_nat (length calls) < GoInt.max_int →
    run sched (start boot calls) = Some σ →
    (∀ i pc p, pool σ !! i = Some (Creating pc p) → pc = c_done) →
    nextID (service (mem σ))
    = 1 + Z.of_nat (length (filter (λ c, is_create c = true) calls)) ∧
    (∀ k, is_Some (products (service (mem σ)) !! k)
          ↔ 1 ≤ k ≤ Z.of_nat (length (filter (λ c, is_create c = true) calls))) ∧
    (∀ i p0, calls !! i = Some (go_CreateProduct p0) →
             ∃ id, pool σ !! i = Some (Creating c_done (set_ID id p0)) ∧
                   products (service (mem σ)) !! id = Some (set_ID id p0)) ∧
    (∀ i j pi pj,
        i ≠ j →
        pool σ !! i = Some (Creating c_done pi) →
        pool σ !! j = Some (Creating c_done pj) →
        ID pi ≠ ID pj).
Proof.
  intros calls sched σ Hlen Hrun Hdone.
  destruct (run_ordered calls sched (start boot calls) σ) as (Hacc & Hord & Hruns).
  { simpl. rewrite length_fmap. exact Hlen. }
  { apply start_accounted. reflexivity. }
  { apply start_ordered. }
  { apply start_runs. }
  { exact Hrun. }
  destruct Hord as [Hnext Hkeys Hdense Hpend Hids Hplaced Hdist].
  rewrite (tally_returned calls (pool σ) Hruns Hdone) in Hnext.
  split; [exact Hnext|]. split; [|split].
  - intros k. split.
    + intros Hk. pose proof (Hkeys k Hk) as Hr.
      destruct (decide (k = nextID (service (mem σ)))) as [->|Hne]; [|lia].
      destruct (Hpend Hk) as (i & p & Hi). discriminate (Hdone i c_incr p Hi).
    + intros Hk. apply Hdense. lia.
  - intros i p0 Hi.
    destruct (Forall2_lookup_l _ _ _ _ _ Hruns Hi) as (g & Hg & Hcg).
    destruct g as [pc p|]; [|contradiction]. simpl in Hcg. destruct Hcg as [Hname Hprice].
    pose proof (Hdone i pc p Hg) as ->.
    pose proof (Hplaced i _ Hg) as [_ Hat]. simpl in Hat.
    assert (Hp : p = set_ID (ID p) p0).
    { destruct p, p0. simpl in *. subst. reflexivity. }
    exists (ID p). rewrite <- Hp. auto.
  - intros i j pi pj Hij Hi Hj. exact (Hdist i j _ pi _ pj Hij Hi Hj eq_refl eq_refl).
Qed.

Lemma interleaved_creates_assign_1_to_n_witness :
  let calls := [go_CreateProduct apple; go_CreateProduct banana; go_GetProducts] in
  ∃ σ, run [2; 1; 1; 2; 1; 2; 1; 1; 1; 0; 2; 0; 0; 0; 0; 0; 2]%nat (start boot calls) = Some σ ∧
       nextID (service (mem σ))
       = 1 + Z.of_nat (length (filter (λ c, is_create c = true) calls)) ∧
       (∀ k, is_Some (products (service (mem σ)) !! k)
             ↔ 1 ≤ k ≤ Z.of_nat (length (filter (λ c, is_create c = true) calls))) ∧
       (∀ i p0, calls !! i = Some (go_CreateProduct p0) →
                ∃ id, pool σ !! i = Some (Creating c_done (set_ID id p0)) ∧
                      products (service (mem σ)) !! id = Some (set_ID id p0)) ∧
       (∀ i j pi pj,
           i ≠ j →
           pool σ !! i = Some (Creating c_done pi) →
           pool σ !! j = Some (Creating c_done pj) →
           ID pi ≠ ID pj).
Proof.
  intros calls. eexists. split; [vm_compute; reflexivity|].
  apply (interleaved_creates_assign_1_to_n calls
           [2; 1; 1; 2; 1; 2; 1; 1; 1; 0; 2; 0; 0; 0; 0; 0; 2]%nat).
  - reflexivity.
  - vm_compute. reflexivity.
  - intros [|[|[|i]]] pc p H; simpl in H; try discriminate;
      injection H as <- _; reflexivity.
Defined.

(** Goroutines that all call [CreateProduct] never all wait: in any
    state they reach, the mutex held or not, if one of them has not
    returned then one of them can execute its next statement. *)
Theorem creates_never_deadlock :
  ∀ (m : Proc) (calls : list call) (sched : list nat) (σ : state) (i : nat)
    (pc : create_pc) (p : Product),
    free m →
    Forall (λ c, is_create c = true) calls →
    run sched (start m calls) = Some σ →
    pool σ !! i = Some (Creating pc p) → pc ≠ c_done →
    ∃ j pcj pj σ', pool σ !! j = Some (Creating pcj pj) ∧ step j σ = Some σ'.
Proof.
  intros m calls sched σ i pc p Hm _ Hrun Hi Hpc.
  pose proof (run_accounted sched _ σ (start_accounted m calls Hm) Hrun) as [Hrd Hh].
  assert (Hgo : ∀ j g, pool σ !! j = Some g → is_Some (exec g (mem σ)) →
                       ∃ σ', step j σ = Some σ').
  { intros j g Hj [[g' m'] He]. unfold step. rewrite Hj. simpl. rewrite He. simpl. eauto. }
  destruct (mem σ) as [[ps [wr rd] n] out h] eqn:Hmem. simpl in Hrd, Hh. subst rd.
  destruct wr; simpl in Hh.
  - destruct (holders_positive (pool σ)) as (j & g & Hj & Hg); [lia|].
    destruct g as [pcj pj|]; [|discriminate].
    destruct (Hgo j _ Hj) as [σ' Hσ'].
    { destruct pcj; try discriminate; simpl; eauto. }
    exists j, pcj, pj, σ'. auto.
  - assert (Hout : in_Lock_section (Creating pc p) = false).
    { destruct (in_Lock_section (Creating pc p)) eqn:Hin; [|reflexivity].
      pose proof (holders_member (pool σ) i _ Hi Hin). lia. }
    destruct pc; try discriminate; [|contradiction Hpc; reflexivity].
    destruct (Hgo i _ Hi) as [σ' Hσ']; [simpl; eauto|].
    exists i, c_Lock, p, σ'. auto.
Qed.

Lemma creates_never_deadlock_witness :
  let calls := [go_CreateProduct apple; go_CreateProduct banana] in
  let σ := {| mem := {| service := {| products := {[ 1 := set_ID 1 apple ]};
                                      mu := {| sync.writer := true; sync.readers := 0 |};
                                      nextID := 1 |};
                        stdout := [];
                        arrays := ∅ |};
              pool := [Creating c_incr (set_ID 1 apple); Creating c_Lock banana] |} in
  run [0; 0; 0]%nat (start boot calls) = Some σ ∧
  step 1 σ = None ∧
  ∃ j pcj pj σ', pool σ !! j = Some (Creating pcj pj) ∧ step j σ = Some σ'.
Proof.
  intros calls σ.
  split; [reflexivity|]. split; [reflexivity|].
  apply (creates_never_deadlock boot calls [0; 0; 0]%nat σ 1%nat c_Lock banana).
  - reflexivity.
  - repeat constructor.
  - reflexivity.
  - reflexivity.
  - discriminate.
Defined.

End ConcurrentCreates.

(** ** The item store: goroutines *)

Module StoreGoroutineFacts.
Import Go ItemStore StoreGoroutines.

Lemma store_holders_cons (g : goroutine) (pool : list goroutine) :
  holders (g :: pool) = (unit_of (in_section g) + holders pool)%nat.
Proof.
  unfold holders. rewrite filter_cons.
  destruct (in_section g); case_decide; simpl; congruence.
Qed.

Lemma store_holders_insert (pool : list goroutine) (i : nat) (g g' : goroutine) :
  pool !! i = Some g →
  (holders (<[i := g']> pool) + unit_of (in_section g)
   = holders pool + unit_of (in_section g'))%nat.
Proof.
  revert i. induction pool as [|g0 pool IH]; intros [|i] Hi; try discriminate.
  - injection Hi as ->. simpl. rewrite !store_holders_cons. lia.
  - simpl in *. rewrite !store_holders_cons. specialize (IH i Hi). lia.
Qed.

Lemma store_holders_spawn (calls : list call) : holders (spawn <$> calls) = 0%nat.
Proof.
  induction calls as [|c calls IH]; [reflexivity|].
  rewrite fmap_cons, store_holders_cons, IH. destruct c; reflexivity.
Qed.

Lemma store_holders_two (pool : list goroutine) (i j : nat) (gi gj : goroutine) :
  i ≠ j → pool !! i = Some gi → pool !! j = Some gj →
  in_section gi = true → in_section gj = true →
  (2 ≤ holders pool)%nat.
Proof.
  intros Hij Hi Hj Hgi Hgj.
  pose proof (store_holders_insert pool i gi (Getting g_done "" None None) Hi) as H1.
  assert (Hj' : <[i := Getting g_done "" None None]> pool !! j = Some gj).
  { rewrite list_lookup_insert_ne by exact Hij. exact Hj. }
  pose proof (store_holders_insert _ j gj (Getting g_done "" None None) Hj') as H2.
  rewrite Hgi in H1. rewrite Hgj in H2. simpl in *. lia.
Qed.

Lemma store_holders_member (pool : list goroutine) (i : nat) (g : goroutine) :
  pool !! i = Some g → in_section g = true → (1 ≤ holders pool)%nat.
Proof.
  intros Hi Hg.
  pose proof (store_holders_insert pool i g (Getting g_done "" None None) Hi) as H.
  rewrite Hg in H. simpl in H. lia.
Qed.

Lemma store_holders_positive (pool : list goroutine) :
  (1 ≤ holders pool)%nat → ∃ i g, pool !! i = Some g ∧ in_section g = true.
Proof.
  induction pool as [|g pool IH]; intros H.
  - change (holders []) with 0%nat in H. lia.
  - rewrite store_holders_cons in H. destruct (in_section g) eqn:Hg.
    + exists 0%nat, g. auto.
    + destruct IH as (i & g0 & Hi & Hg0); [simpl in H; lia|].
      exists (S i), g0. auto.
Qed.

(** What one statement does to the mutex and to the goroutine's place. *)
Lemma exec_mutex (g g' : goroutine) (m m' : Mem) :
  exec g m = Some (g', m') →
  (unit_of (in_section g') + unit_of (sync.locked (mu (store m)))
   = unit_of (in_section g) + unit_of (sync.locked (mu (store m'))))%nat ∧
  (in_section g = false → sync.locked (mu (store m)) = false).
Proof.
  destruct m as [[its [b]] h].
  destruct g as [[] item | [] name [item|] res]; simpl;
    unfold advance, mu_Lock, mu_Unlock, try, sync.Lock, sync.Unlock; simpl;
    intros He; try discriminate;
    try (destruct b; try discriminate);
    injection He as <- <-; simpl; split; (reflexivity || discriminate || auto).
Qed.

Lemma store_step_accounted (i : nat) (σ σ' : state) :
  accounted σ → step i σ = Some σ' → accounted σ'.
Proof.
  unfold accounted, step. intros Hh Hstep.
  destruct (pool σ !! i) as [g|] eqn:Hi; [|discriminate]. simpl in Hstep.
  destruct (exec g (mem σ)) as [[g' m']|] eqn:He; [|discriminate].
  injection Hstep as <-. simpl.
  pose proof (store_holders_insert (pool σ) i g g' Hi) as Hins.
  destruct (exec_mutex g g' (mem σ) m' He) as [Hm _].
  destruct (sync.locked (mu (store (mem σ)))), (sync.locked (mu (store m')));
    simpl in *; lia.
Qed.

Lemma store_run_accounted (sched : list nat) (σ σ' : state) :
  accounted σ → run sched σ = Some σ' → accounted σ'.
Proof.
  revert σ. induction sched as [|i sched IH]; intros σ Hσ Hrun.
  - injection Hrun as <-. exact Hσ.
  - simpl in Hrun. destruct (step i σ) as [σ1|] eqn:Hstep; [|discriminate].
    exact (IH σ1 (store_step_accounted i σ σ1 Hσ Hstep) Hrun).
Qed.

Lemma store_start_accounted (m : Mem) (calls : list call) :
  free m → accounted (start m calls).
Proof.
  unfold free, accounted. simpl. intros ->. rewrite store_holders_spawn. reflexivity.
Qed.

Lemma store_step_head (g g' : goroutine) (m m' : Mem) (rest : list goroutine) :
  exec g m = Some (g', m') →
  step 0 {| mem := m; pool := g :: rest |} = Some {| mem := m'; pool := g' :: rest |}.
Proof. intros H. unfold step. simpl. rewrite H. reflexivity. Qed.

End StoreGoroutineFacts.

Module StoreKept.
Import Go ItemStore StoreGoroutines StoreGoroutineFacts.

Lemma exec_items (g g' : goroutine) (m m' : Mem) :
  exec g m = Some (g', m') →
  match g with
  | Adding a_store item =>
      g' = Adding a_Unlock item ∧
      items (store m') = <[Name item := item]> (items (store m))
  | _ =>
      items (store m') = items (store m) ∧
      (∀ item, has_stored g = Some item → has_stored g' = Some item) ∧
      (∀ item, has_stored g' = Some item → has_stored g = Some item)
  end.
Proof.
  destruct m as [[its [b]] h].
  destruct g as [[] item | [] name [item|] res]; simpl;
    unfold advance, mu_Lock, mu_Unlock, try, sync.Lock, sync.Unlock; simpl;
    intros He; try discriminate;
    try (destruct b; try discriminate);
    injection He as <- <-; simpl; auto.
Qed.

Lemma step_kept (i : nat) (σ σ' : state) :
  kept σ → step i σ = Some σ' → kept σ'.
Proof.
  unfold step. intros Hk Hstep.
  destruct (pool σ !! i) as [g|] eqn:Hi; [|discriminate]. simpl in Hstep.
  destruct (exec g (mem σ)) as [[g' m']|] eqn:He; [|discriminate].
  injection Hstep as <-.
  pose proof (exec_items g g' (mem σ) m' He) as Hx.
  assert (Hlen : (i < length (pool σ))%nat) by (eapply lookup_lt_Some; exact Hi).
  intros a ga item Ha Hsa. simpl in *.
  assert (Hcase :
            (∃ itk, g = Adding a_store itk ∧ g' = Adding a_Unlock itk ∧
                    items (store m') = <[Name itk := itk]> (items (store (mem σ)))) ∨
            (items (store m') = items (store (mem σ)) ∧
             (∀ item, has_stored g = Some item → has_stored g' = Some item) ∧
             (∀ item, has_stored g' = Some item → has_stored g = Some item))).
  { destruct g as [[] itk|]; try (right; exact Hx).
    left. exists itk. destruct Hx. auto. }
  clear Hx. destruct Hcase as [(itk & -> & -> & Hits)|Hq].
  - rewrite Hits.
    destruct (decide (Name item = Name itk)) as [Hn|Hn].
    + exists i, (Adding a_Unlock itk), itk.
      rewrite list_lookup_insert_eq by exact Hlen.
      rewrite Hn, lookup_insert_eq. auto.
    + destruct (decide (a = i)) as [->|Hai].
      * rewrite list_lookup_insert_eq in Ha by exact Hlen.
        injection Ha as <-. simpl in Hsa. injection Hsa as <-. contradiction Hn. reflexivity.
      * rewrite list_lookup_insert_ne in Ha by congruence.
        destruct (Hk a ga item Ha Hsa) as (j & gj & itj & Hj & Hsj & Hnj & Hlook).
        exists j, gj, itj. rewrite lookup_insert_ne by congruence.
        rewrite list_lookup_insert_ne; [auto|].
        intros ->. rewrite Hi in Hj. injection Hj as <-. discriminate.
  - 
    destruct Hq as (Hits & Hfw & Hbw). rewrite Hits.
    assert (Hold : ∃ ga0, pool σ !! a = Some ga0 ∧ has_stored ga0 = Some item).
    { destruct (decide (a = i)) as [->|Hai].
      - rewrite list_lookup_insert_eq in Ha by exact Hlen. injection Ha as <-.
        exists g. auto.
      - rewrite list_lookup_insert_ne in Ha by congruence. eauto. }
    destruct Hold as (ga0 & Ha0 & Hsa0).
    destruct (Hk a ga0 item Ha0 Hsa0) as (j & gj & itj & Hj & Hsj & Hnj & Hlook).
    destruct (decide (j = i)) as [->|Hji].
    + exists i, g', itj. rewrite list_lookup_insert_eq by exact Hlen.
      rewrite Hi in Hj. injection Hj as <-. auto.
    + exists j, gj, itj. rewrite list_lookup_insert_ne by congruence. auto.
Qed.

Lemma run_kept (sched : list nat) (σ σ' : state) :
  kept σ → run sched σ = Some σ' → kept σ'.
Proof.
  revert σ. induction sched as [|i sched IH]; intros σ Hσ Hrun.
  - injection Hrun as <-. exact Hσ.
  - simpl in Hrun. destruct (step i σ) as [σ1|] eqn:Hstep; [|discriminate].
    exact (IH σ1 (step_kept i σ σ1 Hσ Hstep) Hrun).
Qed.

Lemma start_kept (m : Mem) (calls : list call) : kept (start m calls).
Proof.
  intros i g item Hi Hs. simpl in Hi. rewrite list_lookup_fmap in Hi.
  destruct (calls !! i) as [[]|]; simpl in Hi; try discriminate;
    injection Hi as <-; discriminate.
Qed.

End StoreKept.

Module StoreConcurrency.
Import Go ItemStore StoreGoroutines StoreGoroutineFacts StoreKept ItemStoreExamples.

(** No update is lost.  However the goroutines interleave, once an
    [AddItem] is past its store, its name holds the item of an [AddItem]
    that is past its store; so the item of the only [AddItem] under a
    name is in the store from then on. *)
Theorem adds_are_not_lost :
  ∀ (m : Mem) (calls : list call) (sched : list nat) (σ : state)
    (i : nat) (g : goroutine) (item : Item),
    run sched (start m calls) = Some σ →
    pool σ !! i = Some g → has_stored g = Some item →
    (∃ j gj itemj,
        pool σ !! j = Some gj ∧ has_stored gj = Some itemj ∧
        Name itemj = Name item ∧
        items (store (mem σ)) !! Name item = Some itemj) ∧
    ((∀ j pcj itemj, pool σ !! j = Some (Adding pcj itemj) →
                     Name itemj = Name item → j = i) →
     items (store (mem σ)) !! Name item = Some item).
Proof.
  intros m calls sched σ i g item Hrun Hi Hs.
  pose proof (run_kept sched _ σ (start_kept m calls) Hrun i g item Hi Hs)
    as (j & gj & itj & Hj & Hsj & Hnj & Hlook).
  split; [eauto 10|].
  intros Honly. rewrite Hlook.
  destruct gj as [pcj itj'|]; [|discriminate].
  assert (itj' = itj) as -> by (destruct pcj; simpl in Hsj; congruence).
  pose proof (Honly j pcj itj Hj Hnj) as ->.
  rewrite Hi in Hj. injection Hj as ->. simpl in Hs.
  destruct pcj; simpl in Hs; congruence.
Qed.

Lemma adds_are_not_lost_witness :
  let σ := {| mem := {| store := {| items := <["Banana" := banana]> {[ "Apple" := apple ]};
                                    mu := {| sync.locked := true |} |};
                        heap := ∅ |};
              pool := [Adding a_done apple; Adding a_Unlock banana] |} in
  (∃ j gj itemj,
      pool σ !! j = Some gj ∧ has_stored gj = Some itemj ∧
      Name itemj = Name apple ∧
      items (store (mem σ)) !! Name apple = Some itemj) ∧
  ((∀ j pcj itemj, pool σ !! j = Some (Adding pcj itemj) →
                   Name itemj = Name apple → j = 0%nat) →
   items (store (mem σ)) !! Name apple = Some apple).
Proof.
  intros σ.
  apply (adds_are_not_lost boot [go_AddItem apple; go_AddItem banana]
           [0; 0; 0; 1; 1]%nat σ 0%nat (Adding a_done apple) apple).
  - reflexivity.
  - reflexivity.
  - reflexivity.
Defined.

(** Both methods of the item store have pointer receivers and lock the
    one mutex of the store: however [AddItem] and [GetItem] goroutines
    interleave, no two of them are between [Lock] and [Unlock] at once. *)
Theorem ItemStore_serialised :
  ∀ (m : Mem) (calls : list call) (sched : list nat) (σ : state)
    (i j : nat) (gi gj : goroutine),
    free m → run sched (start m calls) = Some σ →
    i ≠ j → pool σ !! i = Some gi → pool σ !! j = Some gj →
    in_section gi = true → in_section gj = false.
Proof.
  intros m calls sched σ i j gi gj Hm Hrun Hij Hi Hj Hgi.
  pose proof (store_run_accounted sched _ σ (store_start_accounted m calls Hm) Hrun) as Hh.
  unfold accounted in Hh.
  destruct (in_section gj) eqn:Hgj; [|reflexivity].
  pose proof (store_holders_two (pool σ) i j gi gj Hij Hi Hj Hgi Hgj) as H2.
  destruct (sync.locked _); lia.
Qed.

Lemma ItemStore_serialised_witness :
  in_section (Getting g_Lock "Apple" None None) = false.
Proof.
  apply (ItemStore_serialised boot [go_AddItem apple; go_GetItem "Apple"] [0; 0]%nat
           {| mem := {| store := {| items := {[ "Apple" := apple ]};
                                    mu := {| sync.locked := true |} |};
                        heap := ∅ |};
              pool := [Adding a_Unlock apple; Getting g_Lock "Apple" None None] |}
           0%nat 1%nat (Adding a_Unlock apple) (Getting g_Lock "Apple" None None)).
  - reflexivity.
  - reflexivity.
  - discriminate.
  - reflexivity.
  - reflexivity.
  - reflexivity.
Defined.

(** A goroutine that runs a method with no other goroutine moving does
    what the method does, and ends holding the method's results. *)
Theorem methods_alone :
  ∀ (m : Mem) (item : Item) (name : string),
    free m →
    run [0; 0; 0]%nat (start m [go_AddItem item])
    = (AddItem item m ≫= λ r, Some {| mem := snd r; pool := [Adding a_done item] |})
    ∧ run [0; 0; 0; 0]%nat (start m [go_GetItem name])
      = (GetItem name m
         ≫= λ r, Some {| mem := snd r;
                          pool := [Getting g_done name (items (store m) !! name)
                                           (Some (fst r))] |}).
Proof.
  intros m item name Hm. split.
  - destruct m as [[its [b]] h]. unfold free in Hm. simpl in Hm.
    injection Hm as ->. reflexivity.
  - destruct (items (store m) !! name) as [it|] eqn:Hl.
    + rewrite (ItemStoreFacts.GetItem_present name it m Hm Hl).
      destruct m as [[its [b]] h]. unfold free in Hm. simpl in Hm, Hl.
      injection Hm as ->. unfold start. simpl fmap. simpl run.
      repeat (first [rewrite Hl | erewrite store_step_head by reflexivity]; simpl).
      reflexivity.
    + rewrite (ItemStoreFacts.GetItem_absent name m Hm Hl).
      destruct m as [[its [b]] h]. unfold free in Hm. simpl in Hm, Hl.
      injection Hm as ->. unfold start. simpl fmap. simpl run.
      repeat (first [rewrite Hl | erewrite store_step_head by reflexivity]; simpl).
      reflexivity.
Qed.

Lemma methods_alone_witness :
  run [0; 0; 0]%nat (start stocked [go_AddItem apple])
  = (AddItem apple stocked ≫= λ r, Some {| mem := snd r; pool := [Adding a_done apple] |})
  ∧ run [0; 0; 0; 0]%nat (start stocked [go_GetItem "Apple"])
    = (GetItem "Apple" stocked
       ≫= λ r, Some {| mem := snd r;
                        pool := [Getting g_done "Apple" (items (store stocked) !! "Apple")
                                         (Some (fst r))] |}).
Proof. apply (methods_alone stocked apple "Apple"). reflexivity. Defined.

(** The goroutines of the item store never all wait: if one of them has
    not returned, one of them can execute its next statement. *)
Theorem ItemStore_never_deadlocks :
  ∀ (m : Mem) (calls : list call) (sched : list nat) (σ : state) (i : nat)
    (g : goroutine),
    free m →
    run sched (start m calls) = Some σ →
    pool σ !! i = Some g → returned g = false →
    ∃ j σ', step j σ = Some σ'.
Proof.
  intros m calls sched σ i g Hm Hrun Hi Hret.
  pose proof (store_run_accounted sched _ σ (store_start_accounted m calls Hm) Hrun) as Hh.
  unfold accounted in Hh.
  assert (Hgo : ∀ j gj, pool σ !! j = Some gj → is_Some (exec gj (mem σ)) →
                        ∃ σ', step j σ = Some σ').
  { intros j gj Hj [[g' m'] He]. unfold step. rewrite Hj. simpl. rewrite He. simpl. eauto. }
  destruct (mem σ) as [[its [b]] h] eqn:Hmem. simpl in Hh. destruct b.
  - destruct (store_holders_positive (pool σ)) as (j & gj & Hj & Hgj); [lia|].
    exists j. apply (Hgo j gj Hj).
    destruct gj as [[] it | [] nm [it|] res]; try discriminate; simpl; eauto.
  - assert (Hout : in_section g = false).
    { destruct (in_section g) eqn:Hin; [|reflexivity].
      pose proof (store_holders_member (pool σ) i g Hi Hin). lia. }
    exists i. apply (Hgo i g Hi).
    destruct g as [[] it | [] nm fd res]; try discriminate; simpl; eauto.
Qed.

Lemma ItemStore_never_deadlocks_witness :
  let calls := [go_AddItem apple; go_GetItem "Apple"] in
  let σ := {| mem := {| store := {| items := ∅; mu := {| sync.locked := true |} |};
                        heap := ∅ |};
              pool := [Adding a_store apple; Getting g_Lock "Apple" None None] |} in
  run [0%nat] (start boot calls) = Some σ ∧
  step 1 σ = None ∧
  ∃ j σ', step j σ = Some σ'.
Proof.
  intros calls σ.
  split; [reflexivity|]. split; [reflexivity|].
  apply (ItemStore_never_deadlocks boot calls [0%nat] σ 1%nat
           (Getting g_Lock "Apple" None None)); reflexivity.
Defined.

End StoreConcurrency.

(** ** Pointers to [int] variables *)

Module PointerFacts.
Import Go GoInt GoIntFacts Pointers.

Lemma wrap_in_range (z : Z) : min_int ≤ z ≤ max_int → wrap z = z.
Proof.
  unfold wrap, min_int, max_int, int_bits. intros H.
  change (2 ^ (64 - 1)) with 9223372036854775808 in *.
  change (2 ^ 64) with 18446744073709551616.
  rewrite Z.mod_small; lia.
Qed.

Lemma addOne_allocated (h : Vars) (l : loc) (v : Z) :
  h !! l = Some v →
  addOne (Some l) h = Some (tt, <[l := wrap (v + 1)]> h).
Proof.
  intros Hl. unfold addOne, bind, load, store. rewrite Hl. simpl.
  rewrite Hl. reflexivity.
Qed.

Lemma updateEngineNumber_allocated (h : Vars) (l : loc) (v : Z) :
  h !! l = Some v →
  updateEngineNumber (Some l) h = Some (tt, <[l := wrap (v + 1)]> h).
Proof.
  intros Hl. unfold updateEngineNumber, bind, load, store. rewrite Hl. simpl.
  rewrite Hl. reflexivity.
Qed.

(** A call that adds one to the variable at [l], [n] times in a row. *)
Lemma times_adds (c : M Vars unit) (l : loc) :
  (∀ h v, h !! l = Some v → c h = Some (tt, <[l := wrap (v + 1)]> h)) →
  ∀ (n : nat) (h : Vars) (v : Z),
    h !! l = Some v → min_int ≤ v → v + Z.of_nat n ≤ max_int →
    times n c h = Some (tt, <[l := v + Z.of_nat n]> h).
Proof.
  intros Hc. induction n as [|n IH]; intros h v Hl Hmin Hmax.
  - replace (v + Z.of_nat 0) with v by lia.
    rewrite insert_id by exact Hl. reflexivity.
  - unfold times. simpl Nat.iter. unfold bind at 1. rewrite (Hc h v Hl).
    rewrite wrap_in_range by lia.
    fold (times n c).
    rewrite (IH _ (v + 1)); [|apply lookup_insert_eq|lia|lia].
    rewrite insert_insert_eq. do 3 f_equal. lia.
Qed.

End PointerFacts.

Module PointerCalls.
Import Go GoInt GoIntFacts Pointers PointerFacts.

(** [addOne] and [updateEngineNumber] change the variable of the
    caller: [n] calls with the address of one variable add [n] to it, as
    long as the sum stays within [int], and leave every other variable
    as it was. *)
Theorem addOne_n_times :
  ∀ (h : Vars) (l : loc) (v : Z) (n : nat),
    h !! l = Some v → min_int ≤ v → v + Z.of_nat n ≤ max_int →
    times n (addOne (Some l)) h = Some (tt, <[l := v + Z.of_nat n]> h) ∧
    times n (updateEngineNumber (Some l)) h = Some (tt, <[l := v + Z.of_nat n]> h).
Proof.
  intros h l v n Hl Hmin Hmax. split.
  - apply (times_adds _ l); [|exact Hl|exact Hmin|exact Hmax].
    intros h0 v0. apply addOne_allocated.
  - apply (times_adds _ l); [|exact Hl|exact Hmin|exact Hmax].
    intros h0 v0. apply updateEngineNumber_allocated.
Qed.

Lemma addOne_n_times_witness :
  times 3 (addOne (Some 1%positive)) {[ 1%positive := 5; 2%positive := 10 ]}
  = Some (tt, <[1%positive := 5 + Z.of_nat 3]> {[ 1%positive := 5; 2%positive := 10 ]}) ∧
  times 3 (updateEngineNumber (Some 1%positive)) {[ 1%positive := 5; 2%positive := 10 ]}
  = Some (tt, <[1%positive := 5 + Z.of_nat 3]> {[ 1%positive := 5; 2%positive := 10 ]}).
Proof.
  apply (addOne_n_times {[ 1%positive := 5; 2%positive := 10 ]} 1%positive 5 3);
    [reflexivity | unfold min_int, int_bits; simpl; lia
     | unfold max_int, int_bits; simpl; lia].
Defined.

(** [swap] exchanges the two variables and touches no other; a second
    [swap] puts the memory back as it was, and the order of the two
    arguments does not matter.  All of this holds when both pointers are
    the address of one and the same variable, which then keeps its
    value. *)
Theorem swap_exchanges :
  ∀ (h : Vars) (a b : loc) (va vb : Z),
    h !! a = Some va → h !! b = Some vb →
    ∃ h', swap (Some a) (Some b) h = Some (tt, h') ∧
          h' !! a = Some vb ∧ h' !! b = Some va ∧
          (∀ l, l ≠ a → l ≠ b → h' !! l = h !! l) ∧
          swap (Some a) (Some b) h' = Some (tt, h) ∧
          swap (Some b) (Some a) h = Some (tt, h').
Proof.
  intros h a b va vb Ha Hb.
  assert (Hrun : ∀ (g : Vars) (x y : loc) (vx vy : Z),
             g !! x = Some vx → g !! y = Some vy →
             swap (Some x) (Some y) g = Some (tt, <[y := vx]> (<[x := vy]> g))).
  { intros g x y vx vy Hx Hy. unfold swap, bind, load, store.
    rewrite Hy, Hx. simpl. rewrite Hx.
    destruct (decide (y = x)) as [->|Hne].
    - rewrite lookup_insert_eq. reflexivity.
    - rewrite lookup_insert_ne by congruence. rewrite Hy. reflexivity. }
  exists (<[b := va]> (<[a := vb]> h)).
  assert (Ha' : <[b := va]> (<[a := vb]> h) !! a = Some vb).
  { destruct (decide (b = a)) as [->|Hne].
    - rewrite lookup_insert_eq. congruence.
    - rewrite lookup_insert_ne, lookup_insert_eq by congruence. reflexivity. }
  assert (Hb' : <[b := va]> (<[a := vb]> h) !! b = Some va)
    by apply lookup_insert_eq.
  split; [exact (Hrun h a b va vb Ha Hb)|].
  split; [exact Ha'|]. split; [exact Hb'|].
  split; [|split].
  - intros l Hla Hlb. rewrite !lookup_insert_ne by congruence. reflexivity.
  - rewrite (Hrun _ a b vb va Ha' Hb'). do 2 f_equal.
    apply map_eq. intros l.
    destruct (decide (l = b)) as [->|Hlb].
    + rewrite lookup_insert_eq. symmetry. exact Hb.
    + rewrite lookup_insert_ne by congruence.
      destruct (decide (l = a)) as [->|Hla].
      * rewrite lookup_insert_eq. symmetry. exact Ha.
      * rewrite !lookup_insert_ne by congruence. reflexivity.
  - rewrite (Hrun h b a vb va Hb Ha). do 2 f_equal.
    destruct (decide (a = b)) as [->|Hne].
    + assert (va = vb) as -> by congruence. reflexivity.
    + apply insert_insert_ne. congruence.
Qed.

Lemma swap_exchanges_witness :
  ∃ h', swap (Some 1%positive) (Some 2%positive) {[ 1%positive := 10; 2%positive := 11 ]}
        = Some (tt, h') ∧
        h' !! 1%positive = Some 11 ∧ h' !! 2%positive = Some 10 ∧
        (∀ l, l ≠ 1%positive → l ≠ 2%positive →
              h' !! l = ({[ 1%positive := 10; 2%positive := 11 ]} : Vars) !! l) ∧
        swap (Some 1%positive) (Some 2%positive) h'
        = Some (tt, {[ 1%positive := 10; 2%positive := 11 ]}) ∧
        swap (Some 2%positive) (Some 1%positive) {[ 1%positive := 10; 2%positive := 11 ]}
        = Some (tt, h').
Proof.
  apply (swap_exchanges {[ 1%positive := 10; 2%positive := 11 ]} 1%positive 2%positive 10 11);
    reflexivity.
Defined.

Lemma Increment_allocated (h : Counters) (l : loc) (k : Counter) :
  h !! l = Some k →
  Increment (Some l) h = Some (tt, <[l := {| count := incr (count k) |}]> h).
Proof. intros Hl. unfold Increment. rewrite Hl. reflexivity. Qed.

Lemma Increment_times (n : nat) :
  ∀ (h : Counters) (l : loc) (k : Counter),
    h !! l = Some k → min_int ≤ count k → count k + Z.of_nat n ≤ max_int →
    times n (Increment (Some l)) h
    = Some (tt, <[l := {| count := count k + Z.of_nat n |}]> h).
Proof.
  induction n as [|n IH]; intros h l k Hl Hmin Hmax.
  - replace (count k + Z.of_nat 0) with (count k) by lia.
    destruct k as [c]. simpl count.
    rewrite insert_id by exact Hl. reflexivity.
  - unfold times. simpl Nat.iter. unfold bind at 1. rewrite (Increment_allocated h l k Hl).
    fold (times n (Increment (Some l))).
    rewrite incr_below_max by lia.
    rewrite (IH _ l {| count := count k + 1 |});
      [|apply lookup_insert_eq|simpl; lia|simpl; lia].
    rewrite insert_insert_eq. simpl. do 4 f_equal. lia.
Qed.

(** [Increment] has a pointer receiver and [Value] a value receiver:
    after [n] calls of [Increment] through a pointer to a [Counter]
    variable, [Value] called on the variable itself returns its old
    count plus [n] (within [int]), and [Value] changes nothing. *)
Theorem Increment_then_Value :
  ∀ (h : Counters) (l : loc) (k : Counter) (n : nat),
    h !! l = Some k → min_int ≤ count k → count k + Z.of_nat n ≤ max_int →
    (times n (Increment (Some l)) ;; call_Value l) h
    = Some (count k + Z.of_nat n, <[l := {| count := count k + Z.of_nat n |}]> h).
Proof.
  intros h l k n Hl Hmin Hmax. unfold bind.
  rewrite (Increment_times n h l k Hl Hmin Hmax).
  unfold call_Value. rewrite lookup_insert_eq. reflexivity.
Qed.

Lemma Increment_then_Value_witness :
  (times 2 (Increment (Some 1%positive)) ;; call_Value 1%positive)
    {[ 1%positive := {| count := 1 |} ]}
  = Some (count {| count := 1 |} + Z.of_nat 2,
          <[1%positive := {| count := count {| count := 1 |} + Z.of_nat 2 |}]>
            {[ 1%positive := {| count := 1 |} ]}).
Proof.
  apply (Increment_then_Value {[ 1%positive := {| count := 1 |} ]} 1%positive
           {| count := 1 |} 2);
    [reflexivity | unfold min_int, int_bits; simpl; lia
     | unfold max_int, int_bits; simpl; lia].
Defined.

End PointerCalls.

(** ** Structs reached through pointers *)

Module PatternFacts.
Import Go Patterns.

Lemma fresh_unused (h : Mem) : h !! fresh (dom h) = None.
Proof. apply not_elem_of_dom, is_fresh. Qed.

Lemma fresh_other (h : Mem) (l : loc) (v : variable) :
  h !! l = Some v → fresh (dom h) ≠ l.
Proof. intros Hl Heq. rewrite <- Heq, fresh_unused in Hl. discriminate. Qed.






(** Running a method body: unfold the monad, then resolve the reads. *)
Ltac unfold_methods :=
  unfold UpdateMetrics, SetUserID, IsUserIDSet,
    read_UserID, read_ResourceIDs, read_Metrics,
    load_Metrics, load_LargeData, load_RequestData, load_ResourceManager,
    load_DataManager, load_slice, load_array, load, store, alloc, stuck,
    bind, ret.

Ltac lookups :=
  repeat first
    [ rewrite lookup_insert_eq
    | rewrite lookup_insert_ne by congruence
    | match goal with
      | H : ?h !! ?l = Some _ |- context [?h !! ?l] => rewrite H
      | H : ?f ?x = Some _ |- context [match ?f ?x with _ => _ end] => rewrite H
      | H : ?f ?x = None |- context [match ?f ?x with _ => _ end] => rewrite H
      end
    | progress simpl ].

(** *** Slices *)











End PatternFacts.

Module PatternCalls.
Import Go Patterns PatternFacts.

(** [SetUserID] makes the field point at a new [int] variable that holds
    the argument, so [IsUserIDSet] answers true for every argument, zero
    included, and reading through the field gives the argument back.
    The other two fields and every other variable of the program keep
    their values; the variable an earlier [SetUserID] made is one of
    them. *)
Theorem SetUserID_then_IsUserIDSet :
  ∀ (h : Mem) (l : loc) (x : RequestData) (id : Z),
    h !! l = Some (a_RequestData x) →
    ∃ (h' : Mem) (p : loc),
      SetUserID (Some l) id h = Some (tt, h') ∧
      h !! p = None ∧
      h' !! l = Some (a_RequestData {| UserID := Some p; Status := Status x;
                                       Payload := Payload x |}) ∧
      IsUserIDSet (Some l) h' = Some (true, h') ∧
      read_UserID (Some l) h' = Some (id, h') ∧
      (∀ k v, h !! k = Some v → k ≠ l → h' !! k = Some v).
Proof.
  intros h l x id Hl.
  pose proof (fresh_unused h) as Hfresh.
  pose proof (fresh_other h l _ Hl) as Hne.
  set (p := fresh (dom h)) in *.
  set (x' := {| UserID := Some p; Status := Status x; Payload := Payload x |}).
  exists (<[l := a_RequestData x']> (<[p := an_int id]> h)), p.
  assert (Hl' : <[l := a_RequestData x']> (<[p := an_int id]> h) !! l
                = Some (a_RequestData x')) by apply lookup_insert_eq.
  assert (Hp' : <[l := a_RequestData x']> (<[p := an_int id]> h) !! p
                = Some (an_int id)).
  { rewrite lookup_insert_ne by (intros Heq; apply Hne; symmetry; exact Heq).
    apply lookup_insert_eq. }
  split; [|split; [exact Hfresh|split; [exact Hl'|split; [|split]]]].
  - unfold_methods. fold p. lookups. reflexivity.
  - unfold_methods. rewrite Hl'. reflexivity.
  - unfold_methods. rewrite Hl'. simpl. rewrite Hp'. reflexivity.
  - intros k v Hk Hkl.
    assert (k ≠ p) by (intros ->; rewrite Hfresh in Hk; discriminate).
    rewrite !lookup_insert_ne by congruence. exact Hk.
Qed.

Lemma SetUserID_then_IsUserIDSet_witness :
  ∃ (h' : Mem) (p : loc),
    SetUserID (Some 1%positive) 0
      {[ 1%positive := a_RequestData {| UserID := None; Status := None; Payload := "" |} ]}
    = Some (tt, h') ∧
    ({[ 1%positive := a_RequestData {| UserID := None; Status := None; Payload := "" |} ]}
       : Mem) !! p = None ∧
    h' !! 1%positive
    = Some (a_RequestData {| UserID := Some p; Status := None; Payload := "" |}) ∧
    IsUserIDSet (Some 1%positive) h' = Some (true, h') ∧
    read_UserID (Some 1%positive) h' = Some (0, h') ∧
    (∀ k v,
       ({[ 1%positive := a_RequestData {| UserID := None; Status := None; Payload := "" |} ]}
          : Mem) !! k = Some v →
       k ≠ 1%positive → h' !! k = Some v).
Proof.
  apply (SetUserID_then_IsUserIDSet
           {[ 1%positive := a_RequestData {| UserID := None; Status := None; Payload := "" |} ]}
           1%positive {| UserID := None; Status := None; Payload := "" |} 0).
  reflexivity.
Defined.







End PatternCalls.

Module PatternItems.
Import Go Patterns PatternFacts.







End PatternItems.

Module PatternMore.
Import Go Patterns PatternFacts PatternItems.



(** [UpdateMetrics] on a [LargeData] whose [Metrics] pointer is nil
    makes a new [Metrics] variable for it; on one whose pointer is set it
    writes through the pointer and keeps it, so whoever holds the
    pointer sees the new numbers.  Either way the [Metrics] then hold
    exactly the two arguments, the other fields keep their values, and
    so does every variable other than the [LargeData] and its
    [Metrics]. *)
Theorem UpdateMetrics_sets_both :
  ∀ (h : Mem) (l : loc) (x : LargeData) (cpu mem : float64),
    h !! l = Some (a_LargeData x) →
    match Metrics' x with
    | None => True
    | Some q => ∃ m, h !! q = Some (a_Metrics m)
    end →
    ∃ (h' : Mem) (p : loc),
      UpdateMetrics (Some l) cpu mem h = Some (tt, h') ∧
      h' !! l = Some (a_LargeData {| Name := Name x; SizeMB := SizeMB x;
                                     Config := Config x; Metrics' := Some p |}) ∧
      match Metrics' x with
      | None => h !! p = None
      | Some q => p = q
      end ∧
      read_Metrics (Some l) h'
      = Some ({| CPUUsage := cpu; MemoryMB := mem |}, h') ∧
      (∀ k v, h !! k = Some v → k ≠ l → Some k ≠ Metrics' x → h' !! k = Some v).
Proof.
  intros h l x cpu mem Hl Hm.
  destruct (Metrics' x) as [q|] eqn:Hx.
  - destruct Hm as [m Hq].
    assert (Hlq : l ≠ q) by (intros ->; rewrite Hl in Hq; discriminate).
    set (m' := {| CPUUsage := cpu; MemoryMB := mem |}).
    exists (<[q := a_Metrics m']> h), q.
    assert (Hl' : <[q := a_Metrics m']> h !! l = Some (a_LargeData x))
      by (rewrite lookup_insert_ne by congruence; exact Hl).
    split; [|split; [|split; [reflexivity|split]]].
    + unfold_methods. lookups. rewrite insert_insert_eq. reflexivity.
    + rewrite Hl'. destruct x; simpl in *; congruence.
    + unfold_methods. rewrite Hl'. simpl. rewrite Hx.
      rewrite lookup_insert_eq. reflexivity.
    + intros k v Hk _ Hkq. rewrite lookup_insert_ne by congruence. exact Hk.
  - pose proof (fresh_unused h) as Hfresh.
    pose proof (fresh_other h l _ Hl) as Hne.
    set (x' := {| Name := Name x; SizeMB := SizeMB x; Config := Config x;
                  Metrics' := Some (fresh (dom h)) |}).
    set (m' := {| CPUUsage := cpu; MemoryMB := mem |}).
    exists (<[fresh (dom h) := a_Metrics m']> (<[l := a_LargeData x']> h)),
           (fresh (dom h)).
    assert (Hl' : <[fresh (dom h) := a_Metrics m']> (<[l := a_LargeData x']> h) !! l
                  = Some (a_LargeData x')).
    { rewrite lookup_insert_ne by congruence. apply lookup_insert_eq. }
    split; [|split; [exact Hl'|split; [exact Hfresh|split]]].
    + unfold_methods. lookups. rewrite !insert_insert_eq.
      do 2 f_equal. apply map_eq. intros k.
      destruct (decide (k = fresh (dom h))) as [->|Hk].
      * rewrite !lookup_insert_eq. reflexivity.
      * rewrite !(lookup_insert_ne _ (fresh (dom h))) by congruence.
        destruct (decide (k = l)) as [->|Hkl].
        -- rewrite !lookup_insert_eq. reflexivity.
        -- rewrite !lookup_insert_ne by congruence. reflexivity.
    + unfold_methods. rewrite Hl'. simpl. rewrite lookup_insert_eq. reflexivity.
    + intros k v Hk Hkl _.
      assert (k ≠ fresh (dom h)) by (intros ->; rewrite Hfresh in Hk; discriminate).
      rewrite !lookup_insert_ne by congruence. exact Hk.
Qed.

Lemma UpdateMetrics_sets_both_witness :
  let x := {| Name := "MyService"; SizeMB := 50; Config := None; Metrics' := None |} in
  let h : Mem := {[ 1%positive := a_LargeData x ]} in
  let cpu := {| bits := 4624915342332788736 |} in
  let mem := {| bits := 4652218415073722368 |} in
  ∃ (h' : Mem) (p : loc),
    UpdateMetrics (Some 1%positive) cpu mem h = Some (tt, h') ∧
    h' !! 1%positive
    = Some (a_LargeData {| Name := "MyService"; SizeMB := 50;
                           Config := None; Metrics' := Some p |}) ∧
    h !! p = None ∧
    read_Metrics (Some 1%positive) h'
    = Some ({| CPUUsage := cpu; MemoryMB := mem |}, h') ∧
    (∀ k v, h !! k = Some v → k ≠ 1%positive → Some k ≠ None → h' !! k = Some v).
Proof.
  intros x h cpu mem.
  apply (UpdateMetrics_sets_both h 1%positive x cpu mem); [reflexivity | exact I].
Defined.

End PatternMore.

Module PatternRuns.
Import Go Patterns.

(** A second slice on the array of the manager's slice, reaching one
    element further: after [AddResource] it reads the id that was
    appended where it had read ["spare"]. *)
Example AddResource_writes_the_shared_array :
  let h : Mem :=
    {[ 1%positive := a_ResourceManager {| ID := "worker-01";
                                          ResourceIDs := Some 2%positive |};
       2%positive := a_slice {| array := Some 3%positive; first := 0;
                                len := 1; cap := 2 |};
       3%positive := an_array [a_str "db-conn-123"; a_str "spare"];
       4%positive := a_slice {| array := Some 3%positive; first := 0;
                                len := 2; cap := 2 |} ]} in
  fst <$> (let* s2 := load_slice (Some 4%positive) in elements s2) h
  = Some [a_str "db-conn-123"; a_str "spare"] ∧
  fst <$> (AddResource doubling (Some 1%positive) "net-conn-456" ;;
           let* s2 := load_slice (Some 4%positive) in elements s2) h
  = Some [a_str "db-conn-123"; a_str "net-conn-456"].
Proof. split; reflexivity. Qed.

(** Without room the elements move: a second [AddResource] leaves the
    shared array alone. *)
Example AddResource_moves_when_full :
  let h : Mem :=
    {[ 1%positive := a_ResourceManager {| ID := "worker-01";
                                          ResourceIDs := Some 2%positive |};
       2%positive := a_slice {| array := Some 3%positive; first := 0;
                                len := 2; cap := 2 |};
       3%positive := an_array [a_str "db-conn-123"; a_str "net-conn-456"] ]} in
  fst <$> (AddResource doubling (Some 1%positive) "tcp-conn-789" ;;
           let* a := load_array (Some 3%positive) in
           let* l := read_ResourceIDs (Some 1%positive) in
           ret (a, l)) h
  = Some ([a_str "db-conn-123"; a_str "net-conn-456"],
          [a_str "db-conn-123"; a_str "net-conn-456"; a_str "tcp-conn-789"]).
Proof. reflexivity. Qed.

End PatternRuns.

(** ** A pointer to an array *)

Module ArrayFacts.
Import Go Arrays.

Lemma Print_appends (text : string) (w : World) :
  Print text w = Some (tt, {| arrays := arrays w; stdout := stdout w ++ [text] |}).
Proof. reflexivity. Qed.

Lemma range_loop_prints (a : list Z) :
  ∀ (i : nat) (w : World),
    range_loop i a w
    = Some (tt, {| arrays := arrays w;
                   stdout := stdout w ++ imap (λ k, index_line (i + k)) a |}).
Proof.
  induction a as [|value rest IH]; intros i w.
  - simpl. rewrite app_nil_r. destruct w; reflexivity.
  - simpl. unfold bind at 1. rewrite Print_appends, IH. simpl.
    rewrite <- app_assoc. simpl. rewrite Nat.add_0_r.
    do 5 f_equal. apply imap_ext. intros k x _. simpl. f_equal. lia.
Qed.

Lemma index_loop_prints (b : loc) (a : list Z) (todo : nat) :
  ∀ (i : nat) (w : World),
    arrays w !! b = Some a →
    (i + todo)%nat = length a →
    index_loop b todo i w
    = Some (tt, {| arrays := arrays w;
                   stdout := stdout w ++ imap (λ k, index_line (i + k)) (drop i a) |}).
Proof.
  induction todo as [|todo IH]; intros i w Hb Hlen.
  - simpl. rewrite drop_ge by lia. simpl. rewrite app_nil_r.
    destruct w; reflexivity.
  - destruct (lookup_lt_is_Some_2 a i) as [value Hi]; [lia|].
    simpl. unfold bind at 1. unfold deref at 1. rewrite Hb, Hi.
    unfold bind at 1. rewrite Print_appends.
    rewrite IH; [|exact Hb|lia]. simpl.
    rewrite (drop_S a value i Hi). simpl. rewrite <- app_assoc. simpl.
    rewrite Nat.add_0_r.
    do 5 f_equal. apply imap_ext. intros k x _. simpl. f_equal. lia.
Qed.

End ArrayFacts.

Module ArrayCalls.
Import Go Arrays ArrayFacts.

(** [processBite] never panics.  Given nil it prints two lines and
    returns.  Given the address of an array it prints the heading, one
    line for each index and element in index order, the second heading,
    and the same lines again: the [range] loop and the index loop print
    the same.  The array is left as it was. *)
Theorem processBite_prints_twice :
  ∀ (w : World) (b : option loc) (a : list Z),
    match b with
    | None => True
    | Some l => arrays w !! l = Some a
    end →
    processBite b w
    = Some (tt, {| arrays := arrays w;
                   stdout :=
                     stdout w
                     ++ ["Processing bite..." +:+ newline]
                     ++ match b with
                        | None => ["bite is nil, cannot loop" +:+ newline]
                        | Some _ =>
                            imap index_line a
                            ++ [newline +:+ "Using traditional for loop:" +:+ newline]
                            ++ imap index_line a
                        end |}).
Proof.
  intros w [l|] a Hb.
  - unfold processBite, Println. unfold bind at 1. rewrite Print_appends.
    unfold bind at 1. unfold deref at 1. simpl arrays. rewrite Hb.
    unfold bind at 1. rewrite range_loop_prints.
    unfold bind at 1. rewrite Print_appends.
    unfold bind at 1. unfold deref at 1. simpl arrays. rewrite Hb.
    rewrite (index_loop_prints l a (length a) 0); [|exact Hb|reflexivity].
    simpl. rewrite <- !app_assoc. reflexivity.
  - unfold processBite, Println, bind, Print, modify. simpl.
    rewrite <- app_assoc. reflexivity.
Qed.

Lemma processBite_prints_twice_witness :
  let w := {| arrays := {[ 1%positive := [7; 255] ]}; stdout := [] |} in
  processBite (Some 1%positive) w
  = Some (tt, {| arrays := arrays w;
                 stdout :=
                   stdout w
                   ++ ["Processing bite..." +:+ newline]
                   ++ (imap index_line [7; 255]
                       ++ [newline +:+ "Using traditional for loop:" +:+ newline]
                       ++ imap index_line [7; 255]) |}).
Proof.
  intros w.
  apply (processBite_prints_twice w (Some 1%positive) [7; 255]).
  reflexivity.
Defined.

End ArrayCalls.

(** ** The product service: [main] *)

Module ServerFacts.
Import Server.

(** Two registrations in a row go through exactly when the patterns
    differ and both are vacant. *)
Lemma HandleFunc_twice (p q : string) (h1 h2 : handler) (s : Program)
    (k : Program → outcome) :
  HandleFunc p h1 s (λ s, HandleFunc q h2 s k)
  = if decide (mux s !! p = None ∧ mux s !! q = None ∧ p ≠ q)
    then k {| mux := <[q := h2]> (<[p := h1]> (mux s)); stdout := stdout s |}
    else match mux s !! p with
         | Some _ => Panicked s
         | None => Panicked {| mux := <[p := h1]> (mux s); stdout := stdout s |}
         end.
Proof.
  unfold HandleFunc. destruct (mux s !! p) eqn:Hp.
  - rewrite decide_False; [reflexivity|]. intros [? _]. discriminate.
  - simpl. destruct (decide (p = q)) as [->|Hpq].
    + rewrite lookup_insert_eq. rewrite decide_False; [reflexivity|].
      intros (_ & _ & ?). congruence.
    + rewrite lookup_insert_ne by exact Hpq. destruct (mux s !! q) eqn:Hq.
      * rewrite decide_False; [reflexivity|]. intros (_ & ? & _). discriminate.
      * rewrite decide_True; [reflexivity|]. auto.
Qed.

End ServerFacts.

Module ServerRuns.
Import Server ServerFacts.

(** [main] registers both handlers under the one pattern "/products", so
    the second [http.HandleFunc] panics.  Whatever the default mux held
    before, [main] gets neither to its [Println] nor to
    [http.ListenAndServe], and the list handler is registered under no
    pattern that did not have it already. *)
Theorem main_panics_on_second_HandleFunc :
  ∀ s : Program,
    ∃ s', main s = Panicked s' ∧
          stdout s' = stdout s ∧
          ∀ p, mux s' !! p = Some the_getProductsHandler →
               mux s !! p = Some the_getProductsHandler.
Proof.
  intros s. unfold main. rewrite HandleFunc_twice.
  rewrite decide_False by (intros (_ & _ & Hne); apply Hne; reflexivity).
  destruct (mux s !! "/products") eqn:Hp.
  - exists s. split; [reflexivity|]. split; [reflexivity|]. auto.
  - eexists. split; [reflexivity|]. split; [reflexivity|].
    simpl. intros p. destruct (decide (p = "/products")) as [->|Hne].
    + rewrite lookup_insert_eq. discriminate.
    + rewrite lookup_insert_ne by congruence. auto.
Qed.

End ServerRuns.
